(** * rotor: handlers, request/response correlation, subscriptions, lifecycle plugins

A shallow embedding of the parts of the rotor actor framework found in
[include/rotor/handler.hpp], [include/rotor/supervisor.h],
[src/rotor/plugin/lifetime.cpp] and [src/rotor/plugin/init_shutdown.cpp].

Pointers are modelled by the identities of the objects they point to,
[std::size_t] and [std::uint32_t] by [Z] with the wrap-around written
out, [std::unordered_map] by [gmap], [std::deque] and [std::list] by
[list] (back of the container = end of the list). *)

From Stdlib Require Import ZArith List Bool Lia.
From stdpp Require Import base decidable option countable list gmap.

Open Scope Z_scope.
Set Warnings "-clear-no-such-hyp".

(** ** Identities and addresses *)

(** Identity of an [address_t] object (what an [address_ptr_t] compares by). *)
Definition address_ptr_t := nat.

(** A process-wide message type tag ([message_type], a [const void *]). *)
Definition type_tag := positive.

(** What the code reads through a [supervisor_t &]: which supervisor it is
    (the pointer value) and that supervisor's own address. *)
Record supervisor_ref := {
  sup_ident : Z;
  sup_address : address_ptr_t
}.

(** [address_t]: an identity and the back reference [supervisor]. *)
Record address_t := {
  addr_ident : address_ptr_t;
  addr_supervisor : supervisor_ref
}.

(** What the code reads through an [actor_base_t *]: the raw pointer value
    and the actor's primary address. *)
Record actor_ref := {
  actor_raw : Z;
  actor_address : address_ptr_t
}.

(** ** handler.hpp *)

Module Handler.

(** [std::size_t] is taken 64 bits wide. *)
Definition size_t_bits : Z := 64.
Definition to_size_t (x : Z) : Z := x mod 2 ^ size_t_bits.

(** The value stored in [handler_t<Handler>::handler]: a pointer to a
    member function of the actor, or the lambda that
    [request_builder_t<T>::install_handler] wraps, which captures the
    request id (the captured supervisor is the one the model follows)
    and is declared for the response message type. *)
Inductive callable :=
| method (entry : N)
| responce_lambda (message_type : type_tag) (request_id : Z).

(** [handler_t<Handler>] seen through [handler_base_t]: [handler_type]
    stands for [typeid(Handler)], i.e. the dynamic type of the object. *)
Record handler_t := {
  raw_actor_ptr : Z;
  handler_type : positive;
  handler : callable;
  precalc_hash : Z;
  actor_ptr : actor_ref
}.

Definition callable_eqb (f g : callable) : bool :=
  match f, g with
  | method a, method b => N.eqb a b
  | responce_lambda t i, responce_lambda u j => Pos.eqb t u && Z.eqb i j
  | _, _ => false
  end.

Section WithHashCode.

(** [std::type_index::hash_code] is implementation defined. *)
Variable hash_code : positive -> Z.

(** The constructor [handler_t(actor_base_t &actor, Handler &&handler_)]. *)
Definition make_handler (actor : actor_ref) (ty : positive) (handler_ : callable)
  : handler_t :=
  let h1 := actor_raw actor in
  let h2 := hash_code ty in
  {| raw_actor_ptr := actor_raw actor;
     handler_type := ty;
     handler := handler_;
     precalc_hash := Z.lxor h1 (to_size_t (Z.shiftl h2 1));
     actor_ptr := actor |}.

End WithHashCode.

(** [handler_t::operator==(const handler_base_t &rhs)]: the actors must
    be the same object, [dynamic_cast] must succeed (same [Handler]
    type) and the stored entry points must compare equal. *)
Definition handler_eqb (lhs rhs : handler_t) : bool :=
  if negb (Z.eqb (raw_actor_ptr lhs) (raw_actor_ptr rhs)) then false
  else Pos.eqb (handler_type rhs) (handler_type lhs)
       && callable_eqb (handler rhs) (handler lhs).

(** [handler_t::hash()]. *)
Definition hash (h : handler_t) : Z := precalc_hash h.

(** [std::hash<rotor::handler_ptr_t>::operator()]: a [reinterpret_cast]
    of a [size_t] to [size_t] is the identity conversion. *)
Definition std_hash (h : handler_t) : Z := hash h.

End Handler.

(** ** Messages *)

Module Message.
Import Handler.

Inductive error_code_t := success | request_timeout.

(** [wrapped_request_t]: the request id, the address the response has to
    go to, the user's arguments, and the message type of the response
    that belongs to the request type [T]. *)
Record wrapped_request_t := {
  request_id : Z;
  reply_to : address_ptr_t;
  request_args : N;
  responce_type : type_tag
}.

(** A subscription point, [(address, handler)]. *)
Record subscription_point_t := {
  point_address : address_t;
  point_handler : handler_t
}.

(** The payloads the embedded code constructs. *)
Inductive payload_t :=
| subscription_confirmation (addr : address_t) (h : handler_t)
| external_subscription (addr : address_t) (h : handler_t)
| unsubscription_confirmation (addr : address_t) (h : handler_t)
| external_unsubscription (addr : address_t) (h : handler_t)
| commit_unsubscription (point : subscription_point_t)
| request (req : wrapped_request_t)
| responce (ec : error_code_t) (req : wrapped_request_t) (res : option N).

(** [message_t<P>]: destination address and payload. *)
Record message_t := {
  address : address_ptr_t;
  payload : payload_t
}.

(** [make_message<M>(addr, args...)]. *)
Definition make_message (addr : address_ptr_t) (p : payload_t) : message_t :=
  {| address := addr; payload := p |}.

End Message.

(** ** supervisor.h *)

Module Supervisor.
Import Handler Message.

(** [timer_id_t] is [std::uint32_t]. *)
Definition timer_id_bits : Z := 32.
Definition to_timer_id (x : Z) : Z := x mod 2 ^ timer_id_bits.

Definition shutdown_timer_id : Z := 0.

(** The fields of [supervisor_t] the embedded code touches.  The model
    follows one supervisor object; what the code reaches through the
    inherited [supervisor] reference ([send], [subscribe]) lands on this
    same object, so [self] stands both for [*this] and for [supervisor].
    [queue] is [*effective_queue]; [timers] is the state of the event
    loop adapter behind [start_timer] and [cancel_timer] (timer id to
    duration); [next_address] is the allocator behind [make_address]. *)
Record supervisor_t := {
  self : supervisor_ref;
  queue : list message_t;
  subscription_map : gmap address_ptr_t (list handler_t);
  last_req_id : Z;
  request_map : gmap Z message_t;
  request_subscriptions : gmap type_tag address_t;
  timers : gmap Z Z;
  next_address : address_ptr_t
}.

Definition set_queue (q : list message_t) (s : supervisor_t) : supervisor_t :=
  {| self := self s; queue := q; subscription_map := subscription_map s;
     last_req_id := last_req_id s; request_map := request_map s;
     request_subscriptions := request_subscriptions s; timers := timers s;
     next_address := next_address s |}.

Definition set_subscription_map (m : gmap address_ptr_t (list handler_t))
  (s : supervisor_t) : supervisor_t :=
  {| self := self s; queue := queue s; subscription_map := m;
     last_req_id := last_req_id s; request_map := request_map s;
     request_subscriptions := request_subscriptions s; timers := timers s;
     next_address := next_address s |}.

Definition set_last_req_id (i : Z) (s : supervisor_t) : supervisor_t :=
  {| self := self s; queue := queue s; subscription_map := subscription_map s;
     last_req_id := i; request_map := request_map s;
     request_subscriptions := request_subscriptions s; timers := timers s;
     next_address := next_address s |}.

Definition set_request_map (m : gmap Z message_t) (s : supervisor_t) : supervisor_t :=
  {| self := self s; queue := queue s; subscription_map := subscription_map s;
     last_req_id := last_req_id s; request_map := m;
     request_subscriptions := request_subscriptions s; timers := timers s;
     next_address := next_address s |}.

Definition set_request_subscriptions (m : gmap type_tag address_t)
  (s : supervisor_t) : supervisor_t :=
  {| self := self s; queue := queue s; subscription_map := subscription_map s;
     last_req_id := last_req_id s; request_map := request_map s;
     request_subscriptions := m; timers := timers s;
     next_address := next_address s |}.

Definition set_timers (t : gmap Z Z) (s : supervisor_t) : supervisor_t :=
  {| self := self s; queue := queue s; subscription_map := subscription_map s;
     last_req_id := last_req_id s; request_map := request_map s;
     request_subscriptions := request_subscriptions s; timers := t;
     next_address := next_address s |}.

Definition set_next_address (n : address_ptr_t) (s : supervisor_t) : supervisor_t :=
  {| self := self s; queue := queue s; subscription_map := subscription_map s;
     last_req_id := last_req_id s; request_map := request_map s;
     request_subscriptions := request_subscriptions s; timers := timers s;
     next_address := n |}.

(** [std::unordered_map::emplace]: inserts only when the key is absent. *)
Definition emplace `{Countable K} {V} (k : K) (v : V) (m : gmap K V) : gmap K V :=
  match m !! k with
  | Some _ => m
  | None => <[k := v]> m
  end.

(** [put]: [effective_queue->emplace_back(message)]. *)
Definition put (m : message_t) (s : supervisor_t) : supervisor_t :=
  set_queue (queue s ++ [m]) s.

(** [actor_base_t::send<M>(addr, args...)]. *)
Definition send (addr : address_ptr_t) (p : payload_t) (s : supervisor_t)
  : supervisor_t :=
  put (make_message addr p) s.

(** Modelled from the spec: the event loop adapter's [start_timer] and
    [cancel_timer] are pure virtual in [supervisor_t]; following the
    adapter contract, [start_timer] schedules a single-shot timer under
    the given id and [cancel_timer] cancels the timer with that id. *)
Definition start_timer (timeout : Z) (timer_id : Z) (s : supervisor_t) : supervisor_t :=
  set_timers (<[timer_id := timeout]> (timers s)) s.

Definition cancel_timer (timer_id : Z) (s : supervisor_t) : supervisor_t :=
  set_timers (delete timer_id (timers s)) s.

(** Modelled from the spec: [make_address] is defined in supervisor.cpp;
    it creates a new address linked with the supervisor. *)
Definition make_address (s : supervisor_t) : address_t * supervisor_t :=
  ({| addr_ident := next_address s; addr_supervisor := self s |},
   set_next_address (S (next_address s)) s).

(** Modelled from the spec: [subscription_t::subscribe] is defined in
    subscription.cpp; the handlers of an address are kept in insertion
    order and subscribing appends. *)
Definition subscription_subscribe (h : handler_t) (subs : list handler_t)
  : list handler_t :=
  subs ++ [h].

(** [&addr->supervisor == &supervisor]. *)
Definition is_local (addr : address_t) (s : supervisor_t) : bool :=
  Z.eqb (sup_ident (addr_supervisor addr)) (sup_ident (self s)).

(** [subscribe_actor(const address_ptr_t &addr, const handler_ptr_t &handler)]. *)
Definition subscribe_actor (addr : address_t) (h : handler_t) (s : supervisor_t)
  : supervisor_t :=
  if is_local addr s then
    let subs := default [] (subscription_map s !! addr_ident addr) in
    let s1 := set_subscription_map
                (<[addr_ident addr := subscription_subscribe h subs]> (subscription_map s)) s in
    send (actor_address (actor_ptr h)) (subscription_confirmation addr h) s1
  else
    send (sup_address (addr_supervisor addr)) (external_subscription addr h) s.

(** [unsubscribe_actor(const address_ptr_t &addr, Handler &&handler)]. *)
Definition unsubscribe_actor (addr : address_t) (h : handler_t) (s : supervisor_t)
  : supervisor_t :=
  let dest := actor_address (actor_ptr h) in
  if is_local addr s then
    send dest (unsubscription_confirmation addr h) s
  else
    send dest (external_unsubscription addr h) s.

(** [request_builder_t<T>]; [T] is named by the message type of its
    response, [responce_message_t::message_type]. *)
Record request_builder_t := {
  b_request_id : Z;
  b_destination : address_ptr_t;
  b_reply_to : address_ptr_t;
  b_do_install_handler : bool;
  b_imaginary_address : address_t;
  b_req : wrapped_request_t
}.

(** The body of the lambda that [install_handler] subscribes; the
    captures are [supervisor] (the supervisor followed here) and
    [request_id]. *)
Definition responce_lambda_body (request_id : Z) (msg : message_t)
  (supervisor : supervisor_t) : supervisor_t :=
  match request_map supervisor !! request_id with
  | Some it =>
      let s1 := cancel_timer request_id supervisor in
      let s2 := send (address it) (payload msg) s1 in
      set_request_map (delete request_id (request_map s2)) s2
  | None => supervisor
  end.

(** [handler_t::call]: the entry point runs only on a message of the
    handler's message type.  Entry points of user actors are outside the
    supervisor's own state. *)
Definition call (h : handler_t) (msg : message_t) (s : supervisor_t) : supervisor_t :=
  match handler h, payload msg with
  | responce_lambda mt rid, responce _ rq _ =>
      if Pos.eqb (responce_type rq) mt then responce_lambda_body rid msg s else s
  | _, _ => s
  end.

Section WithTypeInfo.

(** [std::type_index::hash_code], and the [typeid] of the wrapper type
    of the lambda that [install_handler] instantiates for [T]. *)
Variable hash_code : positive -> Z.
Variable lambda_type : type_tag -> positive.

(** The supervisor as an actor ([*this] in [actor_base_t::subscribe]). *)
Definition self_actor (s : supervisor_t) : actor_ref :=
  {| actor_raw := sup_ident (self s); actor_address := sup_address (self s) |}.

(** [request_builder_t<T>::request_builder_t], reached through
    [do_request<T>(destination, reply_to, args...)]. *)
Definition do_request (T : type_tag) (destination_ reply_to_ : address_ptr_t)
  (args : N) (sup : supervisor_t) : request_builder_t * supervisor_t :=
  let request_id_ := to_timer_id (last_req_id sup + 1) in
  let sup1 := set_last_req_id request_id_ sup in
  let message_type := T in
  let mk install addr :=
    {| b_request_id := request_id_; b_destination := destination_;
       b_reply_to := reply_to_; b_do_install_handler := install;
       b_imaginary_address := addr;
       b_req := {| request_id := request_id_; reply_to := addr_ident addr;
                   request_args := args; responce_type := message_type |} |} in
  match request_subscriptions sup1 !! message_type with
  | Some it => (mk false it, sup1)
  | None =>
      let '(imaginary_address, sup2) := make_address sup1 in
      let sup3 := set_request_subscriptions
                    (emplace message_type imaginary_address (request_subscriptions sup2))
                    sup2 in
      (mk true imaginary_address, sup3)
  end.

(** [request_builder_t<T>::install_handler]: [sup.subscribe(lambda, address)]
    is [supervisor.subscribe_actor] on the address and the lambda wrapped
    into a handler of this actor. *)
Definition install_handler (b : request_builder_t) (sup : supervisor_t) : supervisor_t :=
  let T := responce_type (b_req b) in
  subscribe_actor (b_imaginary_address b)
    (make_handler hash_code (self_actor sup) (lambda_type T)
       (responce_lambda T (b_request_id b)))
    sup.

(** [request_builder_t<T>::timeout]. *)
Definition timeout (b : request_builder_t) (timeout_ : Z) (sup : supervisor_t)
  : supervisor_t :=
  let msg_request := make_message (b_destination b) (request (b_req b)) in
  let msg_timeout :=
    make_message (b_reply_to b) (responce request_timeout (b_req b) None) in
  let sup1 := if b_do_install_handler b then install_handler b sup else sup in
  let sup2 := set_request_map (emplace (b_request_id b) msg_timeout (request_map sup1)) sup1 in
  let sup3 := put msg_request sup2 in
  start_timer timeout_ (b_request_id b) sup3.

(** [request<T>(destination, args...).timeout(d)] as an actor issues it. *)
Definition request_with_timeout (T : type_tag) (destination_ reply_to_ : address_ptr_t)
  (args : N) (d : Z) (sup : supervisor_t) : supervisor_t :=
  let '(b, sup1) := do_request T destination_ reply_to_ args sup in
  timeout b d sup1.

End WithTypeInfo.

(** [actor_base_t::reply_to(request_message, args...)] on the responder's
    side: the response goes to the request's [reply_to] address. *)
Definition reply_to_request (rq : wrapped_request_t) (res : N) : message_t :=
  make_message (reply_to rq) (responce success rq (Some res)).

(** Modelled from the spec: [deliver_local] is defined in supervisor.cpp;
    it resolves the subscription set of the destination and invokes the
    handlers synchronously in registration order. *)
Definition deliver_local (msg : message_t) (s : supervisor_t) : supervisor_t :=
  fold_left (fun acc h => call h msg acc)
            (default [] (subscription_map s !! address msg)) s.

(** Modelled from the spec: [on_timer_trigger] is defined in
    supervisor.cpp; the fired single-shot timer is gone, and for a request
    timer the supervisor takes the stored timeout message out of
    [request_map] and delivers it to the caller's address.  The shutdown
    timer is reported as fatal, which leaves the maps alone. *)
Definition on_timer_trigger (timer_id : Z) (s : supervisor_t) : supervisor_t :=
  let s1 := set_timers (delete timer_id (timers s)) s in
  if Z.eqb timer_id shutdown_timer_id then s1
  else match request_map s1 !! timer_id with
       | Some it => set_request_map (delete timer_id (request_map s1)) (put it s1)
       | None => s1
       end.

(** Modelled from the spec: [on_shutdown] of the supervisor is defined in
    supervisor.cpp; at shutdown initiation the supervisor arms a timer
    with id [shutdown_timer_id]. *)
Definition arm_shutdown_timer (shutdown_timeout : Z) (s : supervisor_t) : supervisor_t :=
  start_timer shutdown_timeout shutdown_timer_id s.

(** What can happen to the supervisor between two quiescent points. *)
Inductive event :=
| ev_request (T : type_tag) (destination reply_to_ : address_ptr_t) (args : N) (d : Z)
| ev_deliver (msg : message_t)
| ev_timer (timer_id : Z)
| ev_shutdown (shutdown_timeout : Z).

Section Run.
Variable hash_code : positive -> Z.
Variable lambda_type : type_tag -> positive.

Definition step (e : event) (s : supervisor_t) : supervisor_t :=
  match e with
  | ev_request T dst rt args d =>
      request_with_timeout hash_code lambda_type T dst rt args d s
  | ev_deliver msg => deliver_local msg s
  | ev_timer id => on_timer_trigger id s
  | ev_shutdown d => arm_shutdown_timer d s
  end.

Definition run (evs : list event) (s : supervisor_t) : supervisor_t :=
  fold_left (fun acc e => step e acc) evs s.
End Run.

(** Modelled from the spec: the constructor is defined in supervisor.cpp.
    On a new supervisor nothing is queued, subscribed, requested, cached
    or armed; the value [last_req_id] starts from and the first address
    the allocator hands out are left open. *)
Definition fresh_supervisor (me : supervisor_ref) (first_address : address_ptr_t)
  (first_req_id : Z) : supervisor_t :=
  {| self := me; queue := []; subscription_map := ∅; last_req_id := first_req_id;
     request_map := ∅; request_subscriptions := ∅; timers := ∅;
     next_address := first_address |}.

End Supervisor.

(** ** The actor as the plugins see it *)

Module Actor.
Import Message.

Inductive state_t := NEW | INITIALIZING | OPERATIONAL | SHUTTING_DOWN | SHUT_DOWN.

Definition state_eqb (a b : state_t) : bool :=
  match a, b with
  | NEW, NEW | INITIALIZING, INITIALIZING | OPERATIONAL, OPERATIONAL
  | SHUTTING_DOWN, SHUTTING_DOWN | SHUT_DOWN, SHUT_DOWN => true
  | _, _ => false
  end.

(** Calls that leave the embedded code for [actor_base_t] and [plugin_t]
    member functions defined elsewhere; they are recorded in the order
    they are made, not followed. *)
Inductive call_t :=
| call_init_continue
| call_shutdown_continue
| call_plugin_deactivate.

(** The fields of [actor_base_t] the plugins touch.  [lifetime] tells
    whether the pointer to the lifetime plugin is set. *)
Record actor_base_t := {
  state : state_t;
  init_request : option message_t;
  shutdown_request : option message_t;
  lifetime : bool;
  calls : list call_t
}.

Definition set_state (st : state_t) (a : actor_base_t) : actor_base_t :=
  {| state := st; init_request := init_request a;
     shutdown_request := shutdown_request a; lifetime := lifetime a;
     calls := calls a |}.

Definition set_init_request (m : option message_t) (a : actor_base_t) : actor_base_t :=
  {| state := state a; init_request := m;
     shutdown_request := shutdown_request a; lifetime := lifetime a;
     calls := calls a |}.

Definition set_shutdown_request (m : option message_t) (a : actor_base_t) : actor_base_t :=
  {| state := state a; init_request := init_request a;
     shutdown_request := m; lifetime := lifetime a;
     calls := calls a |}.

Definition set_lifetime (b : bool) (a : actor_base_t) : actor_base_t :=
  {| state := state a; init_request := init_request a;
     shutdown_request := shutdown_request a; lifetime := b;
     calls := calls a |}.

Definition record_call (c : call_t) (a : actor_base_t) : actor_base_t :=
  {| state := state a; init_request := init_request a;
     shutdown_request := shutdown_request a; lifetime := lifetime a;
     calls := calls a ++ [c] |}.

End Actor.

(** ** plugin/init_shutdown.cpp *)

Module InitShutdown.
Import Message Actor.

(** [init_shutdown_plugin_t::on_init]: the assertion on [NEW] and the
    assignment of [INITIALIZING] are commented out in the source. *)
Definition on_init (msg : message_t) (actor : actor_base_t) : option actor_base_t :=
  let a1 := set_init_request (Some msg) actor in
  Some (record_call call_init_continue a1).

(** [init_shutdown_plugin_t::on_shutdown]; a failed [assert] is [None]. *)
Definition on_shutdown (msg : message_t) (actor : actor_base_t) : option actor_base_t :=
  if state_eqb (state actor) OPERATIONAL then
    let a1 := set_state SHUTTING_DOWN actor in
    let a2 := set_shutdown_request (Some msg) a1 in
    Some (record_call call_shutdown_continue a2)
  else None.

(** [actor_base_t::reply_to(message, args...)] (supervisor.h): the response,
    built from the request and the response arguments, is sent to the
    request's [reply_to] address.  The template takes request messages
    only; on any other payload nothing is modelled. *)
Definition actor_reply_to (message : message_t) (res : N)
  (s : Supervisor.supervisor_t) : Supervisor.supervisor_t :=
  match payload message with
  | request rq => Supervisor.send (reply_to rq) (responce success rq (Some res)) s
  | _ => s
  end.

(** [init_shutdown_plugin_t::handle_init], on the actor and its supervisor;
    the confirmation has no arguments, written [0] here. *)
Definition handle_init (actor : actor_base_t) (s : Supervisor.supervisor_t)
  : bool * actor_base_t * Supervisor.supervisor_t :=
  match init_request actor with
  | Some init_request_ =>
      let s1 := actor_reply_to init_request_ 0%N s in
      (true, set_init_request None actor, s1)
  | None => (false, actor, s)
  end.

End InitShutdown.

(** ** plugin/lifetime.cpp *)

Module Lifetime.
Import Handler Message Supervisor Actor.

Inductive processing_result_t := CONSUMED | FINISHED.

(** The plugin with what it reaches: its [points] (registration order,
    newest last), the actor it is activated on, and that actor's
    supervisor ([actor->get_supervisor()]). *)
Record lifetime_plugin_t := {
  points : list subscription_point_t;
  actor : actor_base_t;
  sup : supervisor_t
}.

Definition set_points (pts : list subscription_point_t) (p : lifetime_plugin_t)
  : lifetime_plugin_t :=
  {| points := pts; actor := actor p; sup := sup p |}.

Definition set_actor (a : actor_base_t) (p : lifetime_plugin_t) : lifetime_plugin_t :=
  {| points := points p; actor := a; sup := sup p |}.

Definition set_sup (s : supervisor_t) (p : lifetime_plugin_t) : lifetime_plugin_t :=
  {| points := points p; actor := actor p; sup := s |}.

(** Equality of points, as [find_subscription] spells it out: the same
    address object and equal handlers. *)
Definition point_eqb (a b : subscription_point_t) : bool :=
  Nat.eqb (addr_ident (point_address a)) (addr_ident (point_address b))
  && handler_eqb (point_handler a) (point_handler b).

(** [lifetime_plugin_t::handle_subscription]: [points.push_back]. *)
Definition handle_subscription (point : subscription_point_t) (p : lifetime_plugin_t)
  : processing_result_t * lifetime_plugin_t :=
  (CONSUMED, set_points (points p ++ [point]) p).

(** The loop of [lifetime_plugin_t::unsubscribe], from [points.rbegin()]
    to [points.rend()]: the points after the current one are visited
    before it. *)
Fixpoint unsubscribe_loop (pts : list subscription_point_t) (s : supervisor_t)
  : supervisor_t :=
  match pts with
  | [] => s
  | it :: rest =>
      unsubscribe_actor (point_address it) (point_handler it) (unsubscribe_loop rest s)
  end.

(** [lifetime_plugin_t::unsubscribe]. *)
Definition unsubscribe (p : lifetime_plugin_t) : lifetime_plugin_t :=
  set_sup (unsubscribe_loop (points p) (sup p)) p.

(** [lifetime_plugin_t::handle_shutdown]. *)
Definition handle_shutdown (p : lifetime_plugin_t) : bool * lifetime_plugin_t :=
  match points p with
  | [] => (true, p)
  | _ :: _ => (false, unsubscribe p)
  end.

(** [std::find(points.rbegin(), points.rend(), point)] followed by
    [points.erase]: the last point equal to [point] goes; [None] when
    there is none. *)
Fixpoint erase_last (point : subscription_point_t) (pts : list subscription_point_t)
  : option (list subscription_point_t) :=
  match pts with
  | [] => None
  | it :: rest =>
      match erase_last point rest with
      | Some rest' => Some (it :: rest')
      | None => if point_eqb it point then Some rest else None
      end
  end.

(** [lifetime_plugin_t::remove_subscription]; a failed [assert] is [None]. *)
Definition remove_subscription (point : subscription_point_t) (p : lifetime_plugin_t)
  : option (processing_result_t * lifetime_plugin_t) :=
  match erase_last point (points p) with
  | None => None
  | Some pts =>
      let p1 := set_points pts p in
      match pts with
      | [] =>
          let a1 := record_call call_shutdown_continue (actor p1) in
          let a2 := set_lifetime false a1 in
          let a3 := record_call call_plugin_deactivate a2 in
          Some (FINISHED, set_actor a3 p1)
      | _ :: _ => Some (CONSUMED, p1)
      end
  end.

(** [lifetime_plugin_t::handle_unsubscription_external]. *)
Definition handle_unsubscription_external (point : subscription_point_t)
  (p : lifetime_plugin_t) : option (processing_result_t * lifetime_plugin_t) :=
  let sup_addr := sup_address (addr_supervisor (point_address point)) in
  let p1 := set_sup (send sup_addr (commit_unsubscription point) (sup p)) p in
  remove_subscription point p1.

(** The loop of [lifetime_plugin_t::find_subscription] over the points
    from newest to oldest; [k] counts the points already passed. *)
Fixpoint find_subscription_loop (addr : address_t) (h : handler_t)
  (newest_first : list subscription_point_t) (k : nat) : option nat :=
  match newest_first with
  | [] => None
  | it :: rest =>
      if Nat.eqb (addr_ident (point_address it)) (addr_ident addr)
         && handler_eqb (point_handler it) h
      then Some k
      else find_subscription_loop addr h rest (S k)
  end.

(** [lifetime_plugin_t::find_subscription]: the position in [points] of
    the iterator it returns ([--it.base()]); [None] when the loop runs out
    and the assertion fails. *)
Definition find_subscription (addr : address_t) (h : handler_t) (p : lifetime_plugin_t)
  : option nat :=
  match find_subscription_loop addr h (rev (points p)) 0 with
  | Some k => Some (length (points p) - 1 - k)%nat
  | None => None
  end.

End Lifetime.

(** ** Vocabulary of the statements and sample values *)

Module Sample.
Import Handler Message Supervisor Actor Lifetime.

(** The message [unsubscribe_actor] sends for a point, seen from [s]. *)
Definition unsubscription_message (s : supervisor_t) (pt : subscription_point_t)
  : message_t :=
  {| address := actor_address (actor_ptr (point_handler pt));
     payload := if is_local (point_address pt) s
                then unsubscription_confirmation (point_address pt) (point_handler pt)
                else external_unsubscription (point_address pt) (point_handler pt) |}.

(** A root supervisor at pointer 1000 with primary address 1, and a
    supervisor at pointer 2000 with primary address 7. *)
Definition sup_a : supervisor_ref := {| sup_ident := 1000; sup_address := 1%nat |}.
Definition sup_b : supervisor_ref := {| sup_ident := 2000; sup_address := 7%nat |}.

(** An actor of supervisor [sup_a] at pointer 4096 with primary address 3. *)
Definition worker : actor_ref := {| actor_raw := 4096; actor_address := 3%nat |}.

Definition sample_hash_code (t : positive) : Z := Zpos t * 7919.

Definition worker_handler : handler_t :=
  make_handler sample_hash_code worker 5%positive (method 2).

(** An address owned by [sup_b], hence foreign to [sup_a], and a local one. *)
Definition foreign_address : address_t := {| addr_ident := 9%nat; addr_supervisor := sup_b |}.
Definition local_address : address_t := {| addr_ident := 4%nat; addr_supervisor := sup_a |}.

Definition idle_supervisor : supervisor_t := fresh_supervisor sup_a 50%nat 0.

Definition sample_request : wrapped_request_t :=
  {| request_id := 1; reply_to := 1%nat; request_args := 0%N; responce_type := 1%positive |}.

(** A lifecycle request addressed to the worker. *)
Definition lifecycle_request : message_t :=
  {| address := 3%nat; payload := request sample_request |}.

Definition actor_in (st : state_t) : actor_base_t :=
  {| state := st; init_request := None; shutdown_request := None;
     lifetime := true; calls := [] |}.

(** The worker's points: first a local one, then a foreign one. *)
Definition local_point : subscription_point_t :=
  {| point_address := local_address; point_handler := worker_handler |}.
Definition foreign_point : subscription_point_t :=
  {| point_address := foreign_address; point_handler := worker_handler |}.

Definition worker_lifetime : lifetime_plugin_t :=
  {| points := [local_point; foreign_point];
     actor := actor_in SHUTTING_DOWN;
     sup := idle_supervisor |}.

(** Whether a message is a response (real or timeout) to request [rid]. *)
Definition answers (rid : Z) (m : message_t) : bool :=
  match payload m with
  | responce _ rq _ => Z.eqb (request_id rq) rid
  | _ => false
  end.

(** What has been sent to [caller] in answer to request [rid]. *)
Definition observed (caller : address_ptr_t) (rid : Z) (s : supervisor_t)
  : list message_t :=
  List.filter (fun m => Nat.eqb (address m) caller && answers rid m) (queue s).

(** The response types for which a request is issued in a run. *)
Definition requested_types (evs : list event) : list type_tag :=
  flat_map (fun e => match e with ev_request T _ _ _ _ => [T] | _ => [] end) evs.

Definition sample_lambda_type (T : type_tag) : positive := (T + 100)%positive.

Definition go (evs : list event) (s : supervisor_t) : supervisor_t :=
  run sample_hash_code sample_lambda_type evs s.

(** Two callers (addresses 10 and 11) and a responder (address 20); the
    first address [idle_supervisor] allocates is 50. *)
Definition caller1 : address_ptr_t := 10%nat.
Definition caller2 : address_ptr_t := 11%nat.
Definition responder : address_ptr_t := 20%nat.

(** The first and the second request of response type 1 on [idle_supervisor]. *)
Definition req1 : wrapped_request_t :=
  {| request_id := 1; reply_to := 50%nat; request_args := 5%N; responce_type := 1%positive |}.
Definition req2 : wrapped_request_t :=
  {| request_id := 2; reply_to := 50%nat; request_args := 6%N; responce_type := 1%positive |}.

Definition first_request : event := ev_request 1%positive responder caller1 5%N 500.
Definition second_request : event := ev_request 1%positive responder caller2 6%N 500.

(** The lambda wrapped by the handler that the first request installs. *)
Definition installed_handler : handler_t :=
  make_handler sample_hash_code (self_actor idle_supervisor) 101%positive
    (responce_lambda 1%positive 1).

(** The second request, issued by the same caller as the first. *)
Definition second_request_same_caller : event :=
  ev_request 1%positive responder caller1 6%N 500.

Definition timeout_message (caller : address_ptr_t) (rq : wrapped_request_t) : message_t :=
  {| address := caller; payload := responce request_timeout rq None |}.

(** No point of the list equals [pt]. *)
Definition unrecorded (pt : subscription_point_t) (pts : list subscription_point_t) : Prop :=
  Forall (fun q => point_eqb q pt = false) pts.

(** Handling the removal of each of the given points in turn; the results
    are collected, [None] at the first failed assertion. *)
Fixpoint remove_all (order : list subscription_point_t) (p : lifetime_plugin_t)
  : option (list processing_result_t * lifetime_plugin_t) :=
  match order with
  | [] => Some ([], p)
  | pt :: rest =>
      match remove_subscription pt p with
      | None => None
      | Some (r, p1) =>
          match remove_all rest p1 with
          | None => None
          | Some (rs, p2) => Some (r :: rs, p2)
          end
      end
  end.

(** Every entry of [request_map] is the timeout response to the request
    whose id is its key, and the key is a [timer_id_t] value. *)
Definition entries_are_timeouts (s : supervisor_t) : Prop :=
  forall id m, request_map s !! id = Some m ->
    0 <= id < 2 ^ timer_id_bits
    /\ exists rq, payload m = responce request_timeout rq None /\ request_id rq = id.

(** Every id other than the reserved one has an entry in [request_map]
    exactly when its timer is armed. *)
Definition entries_match_timers (s : supervisor_t) : Prop :=
  forall id, id <> shutdown_timer_id ->
    (is_Some (request_map s !! id) <-> is_Some (timers s !! id)).

(** The cache of imaginary addresses is sound: a cached address is owned
    by this supervisor, was allocated by it, and carries exactly one
    handler, the response lambda of its type; every address with
    subscriptions was allocated; distinct types have distinct addresses. *)
Definition cache_ok (s : supervisor_t) : Prop :=
  (forall T a, request_subscriptions s !! T = Some a ->
     addr_supervisor a = self s
     /\ (addr_ident a < next_address s)%nat
     /\ exists h k, subscription_map s !! addr_ident a = Some [h]
                    /\ handler h = responce_lambda T k)
  /\ (forall i, is_Some (subscription_map s !! i) -> (i < next_address s)%nat)
  /\ (forall T T' a a',
        request_subscriptions s !! T = Some a ->
        request_subscriptions s !! T' = Some a' ->
        addr_ident a = addr_ident a' -> T = T').

End Sample.

(** * Properties *)

Import Handler Message Supervisor Actor InitShutdown Lifetime Sample.

(** ** Handler equality and hashing *)

Lemma callable_eqb_eq (f g : callable) : callable_eqb f g = true -> f = g.
Proof.
  destruct f as [a | t i], g as [b | u j]; simpl; try discriminate.
  - intros H. apply N.eqb_eq in H. congruence.
  - intros H. apply andb_true_iff in H as [Ht Hi].
    apply Pos.eqb_eq in Ht. apply Z.eqb_eq in Hi. congruence.
Qed.

Lemma handler_eqb_inv (lhs rhs : handler_t) :
  handler_eqb lhs rhs = true ->
  raw_actor_ptr lhs = raw_actor_ptr rhs
  /\ handler_type lhs = handler_type rhs
  /\ handler lhs = handler rhs.
Proof.
  unfold handler_eqb.
  destruct (Z.eqb (raw_actor_ptr lhs) (raw_actor_ptr rhs)) eqn:Hptr; simpl;
    [| discriminate].
  intros H. apply andb_true_iff in H as [Hty Hfn].
  apply Z.eqb_eq in Hptr. apply Pos.eqb_eq in Hty. apply callable_eqb_eq in Hfn.
  auto.
Qed.

(** C10: two handlers that compare equal with [operator==] get the same
    value from [std::hash<handler_ptr_t>], and that value is the hash
    precomputed by the constructor from the actor's identity and the hash
    code of the entry point's type: [h1 ^ (h2 << 1)]. *)
Theorem C10_equal_handlers_hash_alike
  (hash_code : positive -> Z) (a1 a2 : actor_ref) (ty1 ty2 : positive)
  (f1 f2 : callable) :
  handler_eqb (make_handler hash_code a1 ty1 f1) (make_handler hash_code a2 ty2 f2) = true ->
  std_hash (make_handler hash_code a1 ty1 f1) = std_hash (make_handler hash_code a2 ty2 f2)
  /\ std_hash (make_handler hash_code a1 ty1 f1)
     = Z.lxor (actor_raw a1) (to_size_t (Z.shiftl (hash_code ty1) 1)).
Proof.
  intros Heq. apply handler_eqb_inv in Heq as (Hptr & Hty & _).
  simpl in Hptr, Hty. unfold std_hash, hash. simpl.
  split; [| reflexivity].
  rewrite Hptr, Hty. reflexivity.
Qed.

Lemma C10_equal_handlers_hash_alike_witness :
  std_hash worker_handler
  = std_hash worker_handler
  /\ std_hash worker_handler
     = Z.lxor 4096 (to_size_t (Z.shiftl (5 * 7919) 1)).
Proof.
  apply (C10_equal_handlers_hash_alike sample_hash_code worker worker
           5%positive 5%positive (method 2) (method 2)).
  reflexivity.
Defined.

(** ** Subscribing and unsubscribing *)

(** C5: [subscribe_actor] on an address owned by this supervisor appends
    the handler to the handlers subscribed on the address and sends a
    subscription confirmation to the address of the handler's actor; on an
    address owned by another supervisor it sends an external subscription
    request carrying the address and the handler to the owning supervisor's
    address (and records nothing). *)
Theorem C5_subscribe_actor (addr : address_t) (h : handler_t) (s : supervisor_t) :
  (is_local addr s = true ->
     subscription_map (subscribe_actor addr h s) !! addr_ident addr
       = Some (default [] (subscription_map s !! addr_ident addr) ++ [h])
     /\ (forall other, other <> addr_ident addr ->
           subscription_map (subscribe_actor addr h s) !! other = subscription_map s !! other)
     /\ queue (subscribe_actor addr h s)
        = queue s ++ [{| address := actor_address (actor_ptr h);
                         payload := subscription_confirmation addr h |}])
  /\ (is_local addr s = false ->
        subscription_map (subscribe_actor addr h s) = subscription_map s
        /\ queue (subscribe_actor addr h s)
           = queue s ++ [{| address := sup_address (addr_supervisor addr);
                            payload := external_subscription addr h |}]).
Proof.
  unfold subscribe_actor. split; intros Hloc; rewrite Hloc; simpl.
  - split; [| split].
    + apply lookup_insert_eq.
    + intros other Hne. apply lookup_insert_ne. congruence.
    + reflexivity.
  - split; reflexivity.
Qed.

Example subscribe_local_then_foreign :
  let s := subscribe_actor foreign_address worker_handler
             (subscribe_actor local_address worker_handler idle_supervisor) in
  subscription_map s !! 4%nat = Some [worker_handler]
  /\ subscription_map s !! 9%nat = None
  /\ queue s
     = [ {| address := 3%nat;
            payload := subscription_confirmation local_address worker_handler |};
         {| address := 7%nat;
            payload := external_subscription foreign_address worker_handler |} ].
Proof. vm_compute. repeat split. Qed.

Lemma unsubscribe_actor_put (addr : address_t) (h : handler_t) (s : supervisor_t) :
  unsubscribe_actor addr h s
  = put (unsubscription_message s {| point_address := addr; point_handler := h |}) s.
Proof.
  unfold unsubscribe_actor, unsubscription_message, send, make_message. simpl.
  destruct (is_local addr s); reflexivity.
Qed.

Lemma set_queue_set_queue (q q' : list message_t) (s : supervisor_t) :
  set_queue q (set_queue q' s) = set_queue q s.
Proof. reflexivity. Qed.

(** The reverse iteration of [unsubscribe] leaves one message per point on
    the queue, newest point first. *)
Lemma unsubscribe_loop_queue (pts : list subscription_point_t) (s : supervisor_t) :
  unsubscribe_loop pts s
  = set_queue (queue s ++ map (unsubscription_message s) (rev pts)) s.
Proof.
  induction pts as [| it rest IH]; simpl.
  - rewrite app_nil_r. destruct s; reflexivity.
  - rewrite IH, unsubscribe_actor_put. unfold put.
    rewrite set_queue_set_queue. simpl.
    rewrite map_app, app_assoc. reflexivity.
Qed.

(** C9: [handle_shutdown] of the lifetime plugin returns [true] exactly
    when no subscription point is recorded, and then changes nothing;
    otherwise it returns [false] after calling [unsubscribe_actor] once for
    every recorded point, in reverse registration order, which leaves the
    corresponding messages on the supervisor's queue in that order and
    keeps the recorded points. *)
Theorem C9_handle_shutdown (p : lifetime_plugin_t) :
  (fst (handle_shutdown p) = true <-> points p = [])
  /\ (points p = [] -> snd (handle_shutdown p) = p)
  /\ (points p <> [] ->
        fst (handle_shutdown p) = false
        /\ snd (handle_shutdown p)
           = set_sup (set_queue (queue (sup p)
                                 ++ map (unsubscription_message (sup p)) (rev (points p)))
                                (sup p)) p).
Proof.
  unfold handle_shutdown. destruct (points p) as [| it rest] eqn:Hpts; simpl.
  - split; [tauto |]. split; [reflexivity | congruence].
  - split; [split; discriminate |]. split; [discriminate |].
    intros _. split; [reflexivity |].
    unfold unsubscribe. rewrite Hpts, unsubscribe_loop_queue. reflexivity.
Qed.

(** ** The init and shutdown handlers of the init_shutdown plugin *)

(** C7, as the code has it: [on_init] neither checks nor changes the
    actor's state.  In every state it returns normally, stores the request
    in the [init_request] slot and calls [init_continue]; nothing else of
    the actor is touched. *)
Theorem C7_on_init_stores_and_continues (msg : message_t) (a : actor_base_t) :
  exists a',
    on_init msg a = Some a'
    /\ state a' = state a
    /\ init_request a' = Some msg
    /\ calls a' = calls a ++ [call_init_continue]
    /\ shutdown_request a' = shutdown_request a
    /\ lifetime a' = lifetime a.
Proof.
  unfold on_init. eexists. split; [reflexivity |].
  simpl. repeat split.
Qed.

(** C7 fails as stated: an actor in [NEW] that receives an init request is
    still in [NEW] when [on_init] hands over to [init_continue], and an
    init request that reaches an [OPERATIONAL] actor is accepted in the
    same way instead of failing an assertion. *)
Lemma C7_on_init_leaves_NEW :
  state (actor_in NEW) = NEW
  /\ (exists a', on_init lifecycle_request (actor_in NEW) = Some a'
                 /\ state a' = NEW /\ state a' <> INITIALIZING)
  /\ on_init lifecycle_request (actor_in OPERATIONAL) <> None.
Proof.
  split; [reflexivity |]. split.
  - eexists. split; [reflexivity |]. simpl. split; [reflexivity | discriminate].
  - discriminate.
Qed.

(** C8, as the code has it: [on_shutdown] passes its assertion exactly in
    state [OPERATIONAL]; there it moves the actor to [SHUTTING_DOWN],
    stores the request in the [shutdown_request] slot and calls
    [shutdown_continue].  In every other state, [INITIALIZING] included,
    the assertion fails. *)
Theorem C8_on_shutdown_only_operational (msg : message_t) (a : actor_base_t) :
  (state a = OPERATIONAL ->
     exists a',
       on_shutdown msg a = Some a'
       /\ state a' = SHUTTING_DOWN
       /\ shutdown_request a' = Some msg
       /\ calls a' = calls a ++ [call_shutdown_continue]
       /\ init_request a' = init_request a
       /\ lifetime a' = lifetime a)
  /\ (state a <> OPERATIONAL -> on_shutdown msg a = None).
Proof.
  unfold on_shutdown. split.
  - intros ->. simpl. eexists. split; [reflexivity |]. simpl. repeat split.
  - intros Hst. destruct (state a); simpl; congruence.
Qed.

(** C8 fails as stated: a shutdown request that reaches an actor in
    [INITIALIZING] fails the assertion of [on_shutdown]; the actor is not
    moved to [SHUTTING_DOWN]. *)
Lemma C8_on_shutdown_rejects_INITIALIZING :
  state (actor_in INITIALIZING) = INITIALIZING
  /\ on_shutdown lifecycle_request (actor_in INITIALIZING) = None
  /\ (exists a', on_shutdown lifecycle_request (actor_in OPERATIONAL) = Some a'
                 /\ state a' = SHUTTING_DOWN).
Proof.
  split; [reflexivity |]. split; [reflexivity |].
  eexists. split; reflexivity.
Qed.

(** ** Unsubscribing from a foreign address *)

Lemma remove_subscription_sup (pt : subscription_point_t) (p : lifetime_plugin_t)
  (pts : list subscription_point_t) :
  erase_last pt (points p) = Some pts ->
  exists r p',
    remove_subscription pt p = Some (r, p')
    /\ points p' = pts
    /\ sup p' = sup p
    /\ (r = FINISHED <-> pts = []).
Proof.
  intros Herase. unfold remove_subscription. rewrite Herase.
  destruct pts as [| q rest].
  - eexists _, _. split; [reflexivity |]. simpl. repeat split; auto.
  - eexists _, _. split; [reflexivity |]. simpl. repeat split; discriminate.
Qed.

(** C6, as the code has it: [unsubscribe_actor] sends one message to the
    address of the handler's own actor, whoever owns the address: the
    unsubscription confirmation when the address is local, the external
    unsubscription carrying the address and the handler when it is
    foreign.  It is the lifetime plugin of that actor which, on handling
    the external unsubscription of a recorded point, sends the commit
    message carrying the point to the address of the supervisor owning the
    point's address, and drops the point from its records. *)
Theorem C6_unsubscribe_actor (addr : address_t) (h : handler_t) (s : supervisor_t)
  (pt : subscription_point_t) (p : lifetime_plugin_t) :
  (is_local addr s = true ->
     unsubscribe_actor addr h s
     = set_queue (queue s ++ [{| address := actor_address (actor_ptr h);
                                 payload := unsubscription_confirmation addr h |}]) s)
  /\ (is_local addr s = false ->
        unsubscribe_actor addr h s
        = set_queue (queue s ++ [{| address := actor_address (actor_ptr h);
                                    payload := external_unsubscription addr h |}]) s)
  /\ (forall pts, erase_last pt (points p) = Some pts ->
        exists r p',
          handle_unsubscription_external pt p = Some (r, p')
          /\ points p' = pts
          /\ sup p'
             = set_queue (queue (sup p)
                          ++ [{| address := sup_address (addr_supervisor (point_address pt));
                                 payload := commit_unsubscription pt |}]) (sup p)).
Proof.
  split; [| split].
  - intros Hloc. unfold unsubscribe_actor. rewrite Hloc. reflexivity.
  - intros Hloc. unfold unsubscribe_actor. rewrite Hloc. reflexivity.
  - intros pts Herase. unfold handle_unsubscription_external.
    set (p1 := set_sup _ p).
    destruct (remove_subscription_sup pt p1 pts Herase) as (r & p' & Hrm & Hpts & Hsup & _).
    exists r, p'. rewrite Hrm, Hsup. auto.
Qed.

(** C6 fails as stated: unsubscribing the worker's handler from an address
    owned by another supervisor sends the external unsubscription to the
    worker's own address (3), not to the address of the owning supervisor
    (7), and nothing else is put on the queue. *)
Lemma C6_foreign_unsubscription_goes_to_the_actor :
  is_local foreign_address idle_supervisor = false
  /\ queue (unsubscribe_actor foreign_address worker_handler idle_supervisor)
     = [{| address := 3%nat;
           payload := external_unsubscription foreign_address worker_handler |}]
  /\ sup_address (addr_supervisor foreign_address) = 7%nat
  /\ Forall (fun m => address m <> sup_address (addr_supervisor foreign_address))
            (queue (unsubscribe_actor foreign_address worker_handler idle_supervisor)).
Proof.
  split; [reflexivity |]. split; [reflexivity |]. split; [reflexivity |].
  repeat constructor. simpl. discriminate.
Qed.

Example shutdown_unsubscribes_newest_first :
  fst (handle_shutdown worker_lifetime) = false
  /\ queue (sup (snd (handle_shutdown worker_lifetime)))
     = [ {| address := 3%nat;
            payload := external_unsubscription foreign_address worker_handler |};
         {| address := 3%nat;
            payload := unsubscription_confirmation local_address worker_handler |} ]
  /\ points (snd (handle_shutdown worker_lifetime)) = [local_point; foreign_point].
Proof. vm_compute. repeat split. Qed.

Example external_unsubscription_commits_to_the_owner :
  handle_unsubscription_external foreign_point worker_lifetime
  = Some (CONSUMED,
          {| points := [local_point];
             actor := actor_in SHUTTING_DOWN;
             sup := set_queue [{| address := 7%nat;
                                  payload := commit_unsubscription foreign_point |}]
                              idle_supervisor |}).
Proof. vm_compute. reflexivity. Qed.

Example last_point_finishes_the_plugin :
  handle_unsubscription_external foreign_point (set_points [foreign_point] worker_lifetime)
  = Some (FINISHED,
          {| points := [];
             actor := {| state := SHUTTING_DOWN; init_request := None;
                         shutdown_request := None; lifetime := false;
                         calls := [call_shutdown_continue; call_plugin_deactivate] |};
             sup := set_queue [{| address := 7%nat;
                                  payload := commit_unsubscription foreign_point |}]
                              idle_supervisor |}).
Proof. vm_compute. reflexivity. Qed.

(** ** Request and response correlation *)

Example two_requests_enqueued :
  queue (go [first_request; second_request] idle_supervisor)
  = [ {| address := 1%nat;
         payload := subscription_confirmation
                      {| addr_ident := 50%nat; addr_supervisor := sup_a |}
                      installed_handler |};
      {| address := responder; payload := request req1 |};
      {| address := responder; payload := request req2 |} ].
Proof. vm_compute. reflexivity. Qed.

(** C2 at a failing input.  Two requests of the same response type are
    pending (ids 1 and 2, callers 10 and 11) and the response to request 2
    arrives at the imaginary address.  [request_map] contains its id 2, yet
    the handler, installed by request 1, looks up id 1: it cancels timer 1,
    sends the response to the caller of request 1 and erases entry 1, while
    entry 2 and timer 2 stay.  And once request 1 is answered, the response
    to a pending request 2 is dropped although [request_map] contains 2. *)
Theorem C2_handler_uses_the_installing_request_id :
  let s := go [first_request; second_request] idle_supervisor in
  let s' := deliver_local (reply_to_request req2 77) s in
  let t := go [first_request; ev_deliver (reply_to_request req1 76); second_request]
              idle_supervisor in
  subscription_map s !! 50%nat = Some [installed_handler]
  /\ request_map s !! 2 = Some (timeout_message caller2 req2)
  /\ request_map s' !! 2 = Some (timeout_message caller2 req2)
  /\ timers s' !! 2 = Some 500
  /\ request_map s' !! 1 = None
  /\ timers s' !! 1 = None
  /\ queue s' = queue s ++ [{| address := caller1;
                               payload := responce success req2 (Some 77%N) |}]
  /\ request_map t !! 2 = Some (timeout_message caller2 req2)
  /\ deliver_local (reply_to_request req2 77) t = t.
Proof. vm_compute. repeat split. Qed.

(** C1 at a failing input.  One caller (address 10) has two requests of the
    same response type pending and both responses arrive, the one to
    request 2 first.  The caller is sent the real response to request 2;
    the response to request 1 is dropped and timer 1 is cancelled, so
    nothing is left that could answer request 1; timer 2 is still armed,
    and when it fires the caller is sent the timeout for request 2 as
    well.  The caller observes both for request 2 and neither for
    request 1. *)
Theorem C1_both_for_one_request_neither_for_the_other :
  let s := go [first_request; second_request_same_caller;
               ev_deliver (reply_to_request req2 77);
               ev_deliver (reply_to_request req1 76)] idle_supervisor in
  let s' := go [ev_timer 2; ev_timer 1] s in
  observed caller1 1 s = []
  /\ request_map s !! 1 = None
  /\ timers s !! 1 = None
  /\ observed caller1 2 s
     = [{| address := caller1; payload := responce success req2 (Some 77%N) |}]
  /\ timers s !! 2 = Some 500
  /\ observed caller1 2 s'
     = [{| address := caller1; payload := responce success req2 (Some 77%N) |};
        timeout_message caller1 req2]
  /\ observed caller1 1 s' = []
  /\ request_map s' = ∅
  /\ timers s' = ∅.
Proof. vm_compute. repeat split. Qed.

(** ** What each transition of the supervisor touches *)

Lemma emplace_lookup `{Countable K} {V} (k j : K) (v : V) (m : gmap K V) :
  emplace k v m !! j = if decide (k = j) then Some (default v (m !! k)) else m !! j.
Proof.
  unfold emplace. destruct (m !! k) as [w |] eqn:Hk; case_decide; subst; simpl.
  - exact Hk.
  - reflexivity.
  - apply lookup_insert_eq.
  - by apply lookup_insert_ne.
Qed.

Lemma emplace_fresh `{Countable K} {V} (k : K) (v : V) (m : gmap K V) :
  m !! k = None -> emplace k v m = <[k := v]> m.
Proof. intros Hk. unfold emplace. by rewrite Hk. Qed.

(** The response handler touches the timers, the request map and the queue only. *)
Lemma responce_lambda_body_frame (k : Z) (msg : message_t) (s : supervisor_t) :
  subscription_map (responce_lambda_body k msg s) = subscription_map s
  /\ request_subscriptions (responce_lambda_body k msg s) = request_subscriptions s
  /\ next_address (responce_lambda_body k msg s) = next_address s
  /\ self (responce_lambda_body k msg s) = self s.
Proof.
  unfold responce_lambda_body. destruct (request_map s !! k); simpl; auto.
Qed.

(** It erases the entry of the captured id together with that id's timer. *)
Lemma responce_lambda_body_maps (k : Z) (msg : message_t) (s : supervisor_t) :
  request_map (responce_lambda_body k msg s) = delete k (request_map s)
  /\ (is_Some (request_map s !! k) ->
        timers (responce_lambda_body k msg s) = delete k (timers s))
  /\ (request_map s !! k = None -> responce_lambda_body k msg s = s).
Proof.
  unfold responce_lambda_body. destruct (request_map s !! k) as [it |] eqn:Hk; simpl.
  - split; [reflexivity |]. split; [reflexivity | discriminate].
  - split; [| split].
    + symmetry. by apply delete_id.
    + intros [? ?]. discriminate.
    + reflexivity.
Qed.

Lemma call_cases (h : handler_t) (msg : message_t) (s : supervisor_t) :
  call h msg s = s \/ exists k, call h msg s = responce_lambda_body k msg s.
Proof.
  unfold call. destruct (handler h) as [e | mt k]; [by left |].
  destruct (payload msg); try by left.
  destruct (Pos.eqb _ _); [right; by exists k | by left].
Qed.

(** A property kept by the response handler is kept by local delivery. *)
Lemma deliver_local_ind (P : supervisor_t -> Prop) (msg : message_t) :
  (forall k s, P s -> P (responce_lambda_body k msg s)) ->
  forall s, P s -> P (deliver_local msg s).
Proof.
  intros Hbody s. unfold deliver_local.
  generalize (default [] (subscription_map s !! address msg)) as hs.
  intros hs. revert s. induction hs as [| h hs IH]; intros s Hs; simpl; [exact Hs |].
  apply IH. destruct (call_cases h msg s) as [-> | [k ->]]; auto.
Qed.

Lemma deliver_local_frame (msg : message_t) (s : supervisor_t) :
  subscription_map (deliver_local msg s) = subscription_map s
  /\ request_subscriptions (deliver_local msg s) = request_subscriptions s
  /\ next_address (deliver_local msg s) = next_address s
  /\ self (deliver_local msg s) = self s.
Proof.
  apply (deliver_local_ind
           (fun s' => subscription_map s' = subscription_map s
                      /\ request_subscriptions s' = request_subscriptions s
                      /\ next_address s' = next_address s
                      /\ self s' = self s)); [| auto].
  intros k s' (H1 & H2 & H3 & H4).
  destruct (responce_lambda_body_frame k msg s') as (F1 & F2 & F3 & F4).
  rewrite F1, F2, F3, F4. auto.
Qed.

Lemma on_timer_trigger_frame (id : Z) (s : supervisor_t) :
  subscription_map (on_timer_trigger id s) = subscription_map s
  /\ request_subscriptions (on_timer_trigger id s) = request_subscriptions s
  /\ next_address (on_timer_trigger id s) = next_address s
  /\ self (on_timer_trigger id s) = self s.
Proof.
  unfold on_timer_trigger. destruct (Z.eqb id shutdown_timer_id); simpl; [auto |].
  destruct (request_map s !! id); simpl; auto.
Qed.

Lemma on_timer_trigger_maps (id : Z) (s : supervisor_t) :
  timers (on_timer_trigger id s) = delete id (timers s)
  /\ request_map (on_timer_trigger id s)
     = if Z.eqb id shutdown_timer_id then request_map s else delete id (request_map s).
Proof.
  unfold on_timer_trigger. destruct (Z.eqb id shutdown_timer_id); simpl; [auto |].
  destruct (request_map s !! id) eqn:Hid; simpl; [auto |].
  split; [reflexivity |]. symmetry. by apply delete_id.
Qed.

Section Requests.
Variable hash_code : positive -> Z.
Variable lambda_type : type_tag -> positive.

Local Abbreviation issue := (request_with_timeout hash_code lambda_type).

Lemma is_local_own_address (s s' : supervisor_t) (n : address_ptr_t) :
  self s' = self s ->
  is_local {| addr_ident := n; addr_supervisor := self s |} s' = true.
Proof. intros Hself. unfold is_local. simpl. rewrite Hself. apply Z.eqb_refl. Qed.

(** A request arms the timer of its id and emplaces its timeout message. *)
Lemma issue_maps (T : type_tag) (dst rt : address_ptr_t) (args : N) (d : Z)
  (s : supervisor_t) :
  let rid := to_timer_id (last_req_id s + 1) in
  timers (issue T dst rt args d s) = <[rid := d]> (timers s)
  /\ exists m, request_map (issue T dst rt args d s) = emplace rid m (request_map s).
Proof.
  unfold request_with_timeout, do_request. simpl.
  destruct (request_subscriptions s !! T) as [a |]; simpl.
  - split; [reflexivity | eexists; reflexivity].
  - unfold timeout, install_handler, subscribe_actor. simpl.
    rewrite is_local_own_address by reflexivity. simpl.
    split; [reflexivity | eexists; reflexivity].
Qed.

(** A request of a response type whose address is cached allocates
    nothing and subscribes nothing; the request it enqueues carries the
    cached address as its [reply_to]. *)
Lemma issue_cached (T : type_tag) (dst rt : address_ptr_t) (args : N) (d : Z)
  (s : supervisor_t) (a : address_t) :
  request_subscriptions s !! T = Some a ->
  request_subscriptions (issue T dst rt args d s) = request_subscriptions s
  /\ subscription_map (issue T dst rt args d s) = subscription_map s
  /\ next_address (issue T dst rt args d s) = next_address s
  /\ self (issue T dst rt args d s) = self s
  /\ queue (issue T dst rt args d s)
     = queue s ++ [{| address := dst;
                      payload := request {| request_id := to_timer_id (last_req_id s + 1);
                                            reply_to := addr_ident a;
                                            request_args := args;
                                            responce_type := T |} |}].
Proof.
  intros Ha. unfold request_with_timeout, do_request. simpl. rewrite Ha. simpl.
  repeat split.
Qed.

(** The first request of a response type allocates the next address, owned
    by this supervisor, caches it under the type and subscribes the
    response handler on it. *)
Lemma issue_first (T : type_tag) (dst rt : address_ptr_t) (args : N) (d : Z)
  (s : supervisor_t) :
  request_subscriptions s !! T = None ->
  let a := {| addr_ident := next_address s; addr_supervisor := self s |} in
  let h := make_handler hash_code (self_actor s) (lambda_type T)
             (responce_lambda T (to_timer_id (last_req_id s + 1))) in
  request_subscriptions (issue T dst rt args d s) = <[T := a]> (request_subscriptions s)
  /\ subscription_map (issue T dst rt args d s)
     = <[next_address s := default [] (subscription_map s !! next_address s) ++ [h]]>
         (subscription_map s)
  /\ next_address (issue T dst rt args d s) = S (next_address s)
  /\ self (issue T dst rt args d s) = self s.
Proof.
  intros Hnone. unfold request_with_timeout, do_request. simpl. rewrite Hnone. simpl.
  unfold timeout, install_handler, subscribe_actor. simpl.
  rewrite is_local_own_address by reflexivity. simpl.
  rewrite emplace_fresh by exact Hnone.
  repeat split.
Qed.

End Requests.

(** ** Request map entries and armed timers *)

Lemma entries_match_timers_body (k : Z) (msg : message_t) (s : supervisor_t) :
  entries_match_timers s -> entries_match_timers (responce_lambda_body k msg s).
Proof.
  intros Hs. destruct (responce_lambda_body_maps k msg s) as (Hmap & Htim & Hnone).
  destruct (request_map s !! k) as [it |] eqn:Hk.
  - intros id Hid. rewrite Hmap, Htim by eauto.
    destruct (decide (k = id)) as [-> | Hne].
    + rewrite !lookup_delete_eq. split; intros [? ?]; discriminate.
    + rewrite !lookup_delete_ne by exact Hne. by apply Hs.
  - by rewrite Hnone.
Qed.

Lemma entries_match_timers_timer (id0 : Z) (s : supervisor_t) :
  entries_match_timers s -> entries_match_timers (on_timer_trigger id0 s).
Proof.
  intros Hs id Hid. destruct (on_timer_trigger_maps id0 s) as [-> ->].
  destruct (Z.eqb_spec id0 shutdown_timer_id) as [-> | Hne0].
  - rewrite lookup_delete_ne by congruence. by apply Hs.
  - destruct (decide (id0 = id)) as [-> | Hne].
    + rewrite !lookup_delete_eq. split; intros [? ?]; discriminate.
    + rewrite !lookup_delete_ne by exact Hne. by apply Hs.
Qed.

Lemma entries_match_timers_shutdown (d : Z) (s : supervisor_t) :
  entries_match_timers s -> entries_match_timers (arm_shutdown_timer d s).
Proof.
  intros Hs id Hid. unfold arm_shutdown_timer, start_timer. simpl.
  rewrite lookup_insert_ne by congruence. by apply Hs.
Qed.

Lemma entries_match_timers_step (hash_code : positive -> Z)
  (lambda_type : type_tag -> positive) (e : event) (s : supervisor_t) :
  entries_match_timers s -> entries_match_timers (step hash_code lambda_type e s).
Proof.
  intros Hs. destruct e as [T dst rt args d | msg | id0 | d]; simpl.
  - intros id Hid.
    destruct (issue_maps hash_code lambda_type T dst rt args d s) as (-> & m & ->).
    rewrite emplace_lookup, lookup_insert.
    case_decide; [| by apply Hs].
    split; intros _; eauto.
  - apply deliver_local_ind; [| exact Hs].
    intros k s' Hs'. by apply entries_match_timers_body.
  - by apply entries_match_timers_timer.
  - by apply entries_match_timers_shutdown.
Qed.

Lemma entries_match_timers_run (hash_code : positive -> Z)
  (lambda_type : type_tag -> positive) (evs : list event) (s : supervisor_t) :
  entries_match_timers s -> entries_match_timers (run hash_code lambda_type evs s).
Proof.
  revert s. induction evs as [| e evs IH]; intros s Hs; simpl; [exact Hs |].
  apply IH. by apply entries_match_timers_step.
Qed.

(** C4: in every state a supervisor reaches from its creation through
    requests with timeout, deliveries to the response handlers, timer
    triggers and shutdown initiation, each id other than the reserved
    shutdown id has an entry in [request_map] exactly when its timer is
    armed; arming the shutdown timer arms id 0 and adds no entry. *)
Theorem C4_request_map_entry_iff_timer_armed
  (hash_code : positive -> Z) (lambda_type : type_tag -> positive)
  (me : supervisor_ref) (n0 : address_ptr_t) (r0 : Z) (evs : list event) (id : Z) :
  id <> shutdown_timer_id ->
  let s := run hash_code lambda_type evs (fresh_supervisor me n0 r0) in
  (is_Some (request_map s !! id) <-> is_Some (timers s !! id))
  /\ (forall d, timers (arm_shutdown_timer d s) !! shutdown_timer_id = Some d
                /\ request_map (arm_shutdown_timer d s) = request_map s).
Proof.
  intros Hid s. split.
  - apply entries_match_timers_run; [| exact Hid].
    intros j _. simpl. rewrite !lookup_empty. split; intros [? ?]; discriminate.
  - intros d. unfold arm_shutdown_timer, start_timer. simpl.
    split; [apply lookup_insert_eq | reflexivity].
Qed.

Lemma C4_request_map_entry_iff_timer_armed_witness :
  let s := go [first_request; second_request; ev_deliver (reply_to_request req2 77);
               ev_shutdown 900] idle_supervisor in
  (is_Some (request_map s !! 2) <-> is_Some (timers s !! 2))
  /\ (forall d, timers (arm_shutdown_timer d s) !! shutdown_timer_id = Some d
                /\ request_map (arm_shutdown_timer d s) = request_map s).
Proof.
  apply (C4_request_map_entry_iff_timer_armed sample_hash_code sample_lambda_type
           sup_a 50%nat 0
           [first_request; second_request; ev_deliver (reply_to_request req2 77);
            ev_shutdown 900] 2).
  unfold shutdown_timer_id. lia.
Defined.

(** ** The per-type imaginary address *)

Lemma cache_ok_frame (s s' : supervisor_t) :
  subscription_map s' = subscription_map s ->
  request_subscriptions s' = request_subscriptions s ->
  next_address s' = next_address s ->
  self s' = self s ->
  cache_ok s -> cache_ok s'.
Proof.
  unfold cache_ok. intros -> -> -> ->. auto.
Qed.

Lemma requested_types_cons (e : event) (evs : list event) :
  requested_types (e :: evs) = requested_types [e] ++ requested_types evs.
Proof. unfold requested_types. simpl. by rewrite app_nil_r. Qed.

Section Cache.
Variable hash_code : positive -> Z.
Variable lambda_type : type_tag -> positive.

Local Abbreviation issue := (request_with_timeout hash_code lambda_type).
Local Abbreviation step' := (step hash_code lambda_type).
Local Abbreviation run' := (run hash_code lambda_type).

Lemma cache_ok_issue (T : type_tag) (dst rt : address_ptr_t) (args : N) (d : Z)
  (s : supervisor_t) :
  cache_ok s -> cache_ok (issue T dst rt args d s).
Proof.
  intros Hs. destruct (request_subscriptions s !! T) as [a |] eqn:HT.
  - destruct (issue_cached hash_code lambda_type T dst rt args d s a HT)
      as (H1 & H2 & H3 & H4 & _).
    by apply (cache_ok_frame s).
  - destruct (issue_first hash_code lambda_type T dst rt args d s HT)
      as (Hrs & Hsm & Hnext & Hself).
    destruct Hs as (Hcached & Halloc & Hdistinct).
    assert (Hfree : subscription_map s !! next_address s = None).
    { destruct (subscription_map s !! next_address s) eqn:Hn; [| reflexivity].
      assert (next_address s < next_address s)%nat by (apply Halloc; eauto). lia. }
    unfold cache_ok. rewrite Hrs, Hsm, Hnext, Hself, Hfree. simpl.
    split; [| split].
    + intros T0 a0. rewrite lookup_insert. case_decide as HT0.
      * subst T0. intros [= <-]. simpl. split; [reflexivity |]. split; [lia |].
        rewrite lookup_insert_eq. eexists _, _. split; reflexivity.
      * intros Ha0. destruct (Hcached T0 a0 Ha0) as (Hown & Hlt & h & k & Hh & Hk).
        split; [exact Hown |]. split; [lia |].
        rewrite lookup_insert_ne by lia. eauto.
    + intros i. rewrite lookup_insert. case_decide as Hi; [lia |].
      intros Hsome. apply Halloc in Hsome. lia.
    + intros T1 T2 a1 a2. rewrite !lookup_insert.
      repeat case_decide; subst.
      * reflexivity.
      * intros [= <-] Ha2 Heq. simpl in Heq.
        destruct (Hcached T2 a2 Ha2) as (_ & Hlt & _). lia.
      * intros Ha1 [= <-] Heq. simpl in Heq.
        destruct (Hcached T1 a1 Ha1) as (_ & Hlt & _). lia.
      * apply Hdistinct.
Qed.

Lemma cache_ok_step (e : event) (s : supervisor_t) : cache_ok s -> cache_ok (step' e s).
Proof.
  intros Hs. destruct e as [T dst rt args d | msg | id0 | d]; simpl.
  - by apply cache_ok_issue.
  - destruct (deliver_local_frame msg s) as (H1 & H2 & H3 & H4).
    by apply (cache_ok_frame s).
  - destruct (on_timer_trigger_frame id0 s) as (H1 & H2 & H3 & H4).
    by apply (cache_ok_frame s).
  - by apply (cache_ok_frame s).
Qed.

(** Each step allocates one address per response type that enters the cache. *)
Lemma allocation_step (e : event) (s : supervisor_t) :
  dom (request_subscriptions (step' e s))
  = dom (request_subscriptions s) ∪ list_to_set (requested_types [e])
  /\ (next_address (step' e s) + size (request_subscriptions s)
      = next_address s + size (request_subscriptions (step' e s)))%nat.
Proof.
  destruct e as [T dst rt args d | msg | id0 | d]; simpl.
  - destruct (request_subscriptions s !! T) as [a |] eqn:HT.
    + destruct (issue_cached hash_code lambda_type T dst rt args d s a HT)
        as (-> & _ & -> & _).
      split; [| reflexivity].
      assert (T ∈ dom (request_subscriptions s)) by (apply elem_of_dom; eauto).
      set_solver.
    + destruct (issue_first hash_code lambda_type T dst rt args d s HT)
        as (-> & _ & -> & _).
      rewrite dom_insert_L, map_size_insert_None by exact HT.
      split; [set_solver | lia].
  - destruct (deliver_local_frame msg s) as (_ & -> & -> & _).
    split; [set_solver | reflexivity].
  - destruct (on_timer_trigger_frame id0 s) as (_ & -> & -> & _).
    split; [set_solver | reflexivity].
  - split; [set_solver | reflexivity].
Qed.

Lemma cache_run (evs : list event) (s : supervisor_t) :
  cache_ok s ->
  cache_ok (run' evs s)
  /\ dom (request_subscriptions (run' evs s))
     = dom (request_subscriptions s) ∪ list_to_set (requested_types evs)
  /\ (next_address (run' evs s) + size (request_subscriptions s)
      = next_address s + size (request_subscriptions (run' evs s)))%nat
  /\ self (run' evs s) = self s.
Proof.
  revert s. induction evs as [| e evs IH]; intros s Hs.
  - simpl. split; [exact Hs |]. split; [set_solver |]. split; reflexivity.
  - change (run' (e :: evs) s) with (run' evs (step' e s)).
    destruct (IH (step' e s) (cache_ok_step e s Hs)) as (Hok & Hdom & Hcount & Hself).
    destruct (allocation_step e s) as (Hdom1 & Hcount1).
    split; [exact Hok |]. split; [| split].
    + rewrite Hdom, Hdom1.
      rewrite (requested_types_cons e evs), list_to_set_app_L. set_solver.
    + lia.
    + rewrite Hself. destruct e as [T dst rt args d | msg | id0 | d]; simpl.
      * destruct (request_subscriptions s !! T) as [a |] eqn:HT.
        -- by destruct (issue_cached hash_code lambda_type T dst rt args d s a HT)
             as (_ & _ & _ & -> & _).
        -- by destruct (issue_first hash_code lambda_type T dst rt args d s HT)
             as (_ & _ & _ & ->).
      * by destruct (deliver_local_frame msg s) as (_ & _ & _ & ->).
      * by destruct (on_timer_trigger_frame id0 s) as (_ & _ & _ & ->).
      * reflexivity.
Qed.

End Cache.

Lemma cache_ok_fresh (me : supervisor_ref) (n0 : address_ptr_t) (r0 : Z) :
  cache_ok (fresh_supervisor me n0 r0).
Proof.
  unfold cache_ok. simpl. split; [| split].
  - intros T a. rewrite lookup_empty. discriminate.
  - intros i. rewrite lookup_empty. intros [? ?]. discriminate.
  - intros T T' a a'. rewrite lookup_empty. discriminate.
Qed.

(** C3: after any run of a supervisor from its creation, the response
    types with a cached imaginary address are exactly those for which a
    request was issued; one address was allocated per such type and none
    besides; each cached address is owned by the supervisor, differs from
    the address of every other type and carries exactly one handler, the
    response lambda of its type; and a further request of a cached type
    allocates nothing, leaves cache and subscriptions as they are, and
    sends its request with the cached address as [reply_to]. *)
Theorem C3_imaginary_address_once_per_type
  (hash_code : positive -> Z) (lambda_type : type_tag -> positive)
  (me : supervisor_ref) (n0 : address_ptr_t) (r0 : Z) (evs : list event) :
  let s := run hash_code lambda_type evs (fresh_supervisor me n0 r0) in
  dom (request_subscriptions s) = list_to_set (requested_types evs)
  /\ next_address s = (n0 + size (request_subscriptions s))%nat
  /\ (forall T a, request_subscriptions s !! T = Some a ->
        addr_supervisor a = me
        /\ exists h k, subscription_map s !! addr_ident a = Some [h]
                       /\ handler h = responce_lambda T k)
  /\ (forall T T' a a',
        request_subscriptions s !! T = Some a ->
        request_subscriptions s !! T' = Some a' ->
        addr_ident a = addr_ident a' -> T = T')
  /\ (forall T a dst rt args d,
        request_subscriptions s !! T = Some a ->
        let s' := request_with_timeout hash_code lambda_type T dst rt args d s in
        request_subscriptions s' = request_subscriptions s
        /\ subscription_map s' = subscription_map s
        /\ next_address s' = next_address s
        /\ queue s'
           = queue s ++ [{| address := dst;
                            payload := request {| request_id := to_timer_id (last_req_id s + 1);
                                                  reply_to := addr_ident a;
                                                  request_args := args;
                                                  responce_type := T |} |}]).
Proof.
  intros s.
  destruct (cache_run hash_code lambda_type evs (fresh_supervisor me n0 r0)
              (cache_ok_fresh me n0 r0)) as (Hok & Hdom & Hcount & Hself).
  fold s in Hok, Hdom, Hcount, Hself.
  destruct Hok as (Hcached & _ & Hdistinct).
  simpl in Hdom, Hcount, Hself.
  split; [| split; [| split; [| split]]].
  - rewrite Hdom, dom_empty_L. set_solver.
  - rewrite map_size_empty in Hcount. lia.
  - intros T a Ha. destruct (Hcached T a Ha) as (Hown & _ & Hh).
    split; [congruence | exact Hh].
  - exact Hdistinct.
  - intros T a dst rt args d Ha s'.
    destruct (issue_cached hash_code lambda_type T dst rt args d s a Ha)
      as (H1 & H2 & H3 & _ & H5).
    auto.
Qed.

Example one_address_for_two_requests :
  let s := go [first_request; second_request] idle_supervisor in
  request_subscriptions s !! 1%positive
    = Some {| addr_ident := 50%nat; addr_supervisor := sup_a |}
  /\ subscription_map s !! 50%nat = Some [installed_handler]
  /\ next_address s = 51%nat.
Proof. vm_compute. repeat split. Qed.

(** * Further properties of the embedded code *)

(** ** Handlers as keys *)

Lemma callable_eqb_refl (f : callable) : callable_eqb f f = true.
Proof.
  destruct f as [e | t i]; simpl.
  - apply N.eqb_refl.
  - rewrite Pos.eqb_refl, Z.eqb_refl. reflexivity.
Qed.

Lemma handler_eqb_true (lhs rhs : handler_t) :
  handler_eqb lhs rhs = true
  <-> raw_actor_ptr lhs = raw_actor_ptr rhs
      /\ handler_type lhs = handler_type rhs
      /\ handler lhs = handler rhs.
Proof.
  split; [apply handler_eqb_inv |].
  intros (Hptr & Hty & Hfn). unfold handler_eqb.
  rewrite Hptr, Hty, Hfn, Z.eqb_refl, Pos.eqb_refl, callable_eqb_refl. reflexivity.
Qed.

(** [operator==] on handlers is an equivalence, although the code treats
    its two sides differently (it casts the right-hand side to the type of
    the left-hand side): every handler equals itself, the comparison gives
    the same answer with its sides swapped, and it is transitive. *)
Theorem handler_equality_is_an_equivalence :
  (forall h, handler_eqb h h = true)
  /\ (forall a b, handler_eqb a b = handler_eqb b a)
  /\ (forall a b c, handler_eqb a b = true -> handler_eqb b c = true ->
                    handler_eqb a c = true).
Proof.
  split; [| split].
  - intros h. apply handler_eqb_true. auto.
  - intros a b.
    destruct (handler_eqb a b) eqn:Hab, (handler_eqb b a) eqn:Hba; try reflexivity.
    + apply handler_eqb_true in Hab as (H1 & H2 & H3).
      assert (handler_eqb b a = true) by (apply handler_eqb_true; auto).
      congruence.
    + apply handler_eqb_true in Hba as (H1 & H2 & H3).
      assert (handler_eqb a b = true) by (apply handler_eqb_true; auto).
      congruence.
  - intros a b c Hab Hbc.
    apply handler_eqb_true in Hab as (H1 & H2 & H3).
    apply handler_eqb_true in Hbc as (H4 & H5 & H6).
    apply handler_eqb_true. repeat split; congruence.
Qed.

Lemma lxor_below_pow2 (n a b : Z) :
  0 <= n -> 0 <= a < 2 ^ n -> 0 <= b < 2 ^ n -> 0 <= Z.lxor a b < 2 ^ n.
Proof.
  intros Hn Ha Hb.
  assert (Hnn : 0 <= Z.lxor a b) by (apply Z.lxor_nonneg; lia).
  split; [exact Hnn |].
  destruct (Z.eq_dec (Z.lxor a b) 0) as [-> | Hne]; [apply Z.pow_pos_nonneg; lia |].
  apply Z.log2_lt_pow2; [lia |].
  pose proof (Z.log2_lxor a b ltac:(lia) ltac:(lia)) as Hlog.
  assert (Hpos : 0 < n).
  { destruct (Z.eq_dec n 0) as [-> | ?]; [| lia]. rewrite Z.pow_0_r in Ha, Hb.
    assert (a = 0) by lia. assert (b = 0) by lia. subst.
    rewrite Z.lxor_0_l in Hne. lia. }
  assert (Hla : Z.log2 a < n).
  { destruct (Z.eq_dec a 0) as [-> | ?]; [simpl; lia | apply Z.log2_lt_pow2; lia]. }
  assert (Hlb : Z.log2 b < n).
  { destruct (Z.eq_dec b 0) as [-> | ?]; [simpl; lia | apply Z.log2_lt_pow2; lia]. }
  lia.
Qed.

(** The hash the constructor precomputes fits [std::size_t] whenever the
    actor's pointer does, whatever value [hash_code] returns: the shifted
    hash code is cut to the width of [std::size_t] before the xor. *)
Theorem handler_hash_fits_size_t (hash_code : positive -> Z) (a : actor_ref)
  (ty : positive) (f : callable) :
  0 <= actor_raw a < 2 ^ size_t_bits ->
  0 <= std_hash (make_handler hash_code a ty f) < 2 ^ size_t_bits.
Proof.
  intros Ha. unfold std_hash, hash. simpl.
  apply lxor_below_pow2; [unfold size_t_bits; lia | exact Ha |].
  unfold to_size_t. apply Z.mod_pos_bound. unfold size_t_bits. lia.
Qed.

Lemma handler_hash_fits_size_t_witness :
  0 <= std_hash worker_handler < 2 ^ size_t_bits.
Proof.
  apply (handler_hash_fits_size_t sample_hash_code worker 5%positive (method 2)).
  unfold worker, size_t_bits. simpl. lia.
Defined.

(** ** The records of the lifetime plugin *)

Lemma point_eqb_refl (pt : subscription_point_t) : point_eqb pt pt = true.
Proof.
  unfold point_eqb. rewrite Nat.eqb_refl. simpl.
  apply handler_eqb_true. auto.
Qed.

Lemma erase_last_None (pt : subscription_point_t) (pts : list subscription_point_t) :
  erase_last pt pts = None <-> unrecorded pt pts.
Proof.
  unfold unrecorded. induction pts as [| it rest IH]; simpl.
  - split; [constructor | reflexivity].
  - destruct (erase_last pt rest) as [rest' |] eqn:Hrest.
    + split; [discriminate |]. intros Hall. inversion Hall; subst.
      assert (@None (list subscription_point_t) = Some rest') by (symmetry; tauto).
      discriminate.
    + destruct (point_eqb it pt) eqn:Hit.
      * split; [discriminate |]. intros Hall. inversion Hall; subst. congruence.
      * split; [| reflexivity]. intros _. constructor; [exact Hit | tauto].
Qed.

Lemma erase_last_Some (pt : subscription_point_t) (pts pts' : list subscription_point_t) :
  erase_last pt pts = Some pts'
  <-> exists l1 q l2,
        pts = l1 ++ q :: l2 /\ pts' = l1 ++ l2
        /\ point_eqb q pt = true /\ unrecorded pt l2.
Proof.
  split.
  - revert pts'. induction pts as [| it rest IH]; intros pts'; simpl; [discriminate |].
    destruct (erase_last pt rest) as [rest' |] eqn:Hrest.
    + intros [= <-]. destruct (IH rest' eq_refl) as (l1 & q & l2 & -> & -> & Hq & Hl2).
      exists (it :: l1), q, l2. auto.
    + destruct (point_eqb it pt) eqn:Hit; [| discriminate].
      intros [= <-]. exists [], it, rest. repeat split; [exact Hit |].
      by apply erase_last_None.
  - intros (l1 & q & l2 & -> & -> & Hq & Hl2).
    induction l1 as [| x l1 IH]; simpl.
    + apply erase_last_None in Hl2. rewrite Hl2, Hq. reflexivity.
    + rewrite IH. reflexivity.
Qed.

(** [remove_subscription] fails its assertion exactly when no recorded
    point equals the given one. *)
Theorem remove_subscription_fails_iff_unrecorded
  (pt : subscription_point_t) (p : lifetime_plugin_t) :
  remove_subscription pt p = None <-> unrecorded pt (points p).
Proof.
  rewrite <- erase_last_None. unfold remove_subscription.
  destruct (erase_last pt (points p)) as [pts |]; [| tauto].
  split; [| discriminate]. destruct pts; discriminate.
Qed.

(** When [remove_subscription] succeeds it takes out exactly one point:
    the newest of the recorded points equal to the given one.  The other
    points keep their order and the supervisor is not touched. *)
Theorem remove_subscription_takes_the_newest_match
  (pt : subscription_point_t) (p p' : lifetime_plugin_t) (r : processing_result_t) :
  remove_subscription pt p = Some (r, p') ->
  exists older q newer,
    points p = older ++ q :: newer
    /\ points p' = older ++ newer
    /\ point_eqb q pt = true
    /\ unrecorded pt newer
    /\ sup p' = sup p.
Proof.
  unfold remove_subscription.
  destruct (erase_last pt (points p)) as [pts |] eqn:Herase; [| discriminate].
  apply erase_last_Some in Herase as (l1 & q & l2 & Hpts & -> & Hq & Hl2).
  intros Hrm. exists l1, q, l2.
  destruct (l1 ++ l2) eqn:Hrest; injection Hrm as <- <-; simpl; rewrite ?Hrest; auto.
Qed.

Lemma remove_subscription_takes_the_newest_match_witness :
  exists older q newer,
    points worker_lifetime = older ++ q :: newer
    /\ points (set_points [local_point] worker_lifetime) = older ++ newer
    /\ point_eqb q foreign_point = true
    /\ unrecorded foreign_point newer
    /\ sup (set_points [local_point] worker_lifetime) = sup worker_lifetime.
Proof.
  apply (remove_subscription_takes_the_newest_match foreign_point worker_lifetime
           (set_points [local_point] worker_lifetime) CONSUMED).
  reflexivity.
Defined.

(** A successful [remove_subscription] shortens the records by one point.
    It reports [FINISHED] exactly when it removed the last recorded point,
    and then it has called [shutdown_continue], cleared the actor's pointer
    to the plugin and deactivated the plugin, in this order; otherwise it
    reports [CONSUMED] and leaves the actor as it was. *)
Theorem remove_subscription_finishes_on_the_last_point
  (pt : subscription_point_t) (p p' : lifetime_plugin_t) (r : processing_result_t) :
  remove_subscription pt p = Some (r, p') ->
  length (points p) = S (length (points p'))
  /\ (r = FINISHED <-> points p' = [])
  /\ (r = FINISHED ->
        calls (actor p') = calls (actor p) ++ [call_shutdown_continue; call_plugin_deactivate]
        /\ lifetime (actor p') = false
        /\ state (actor p') = state (actor p))
  /\ (r = CONSUMED -> actor p' = actor p).
Proof.
  unfold remove_subscription.
  destruct (erase_last pt (points p)) as [pts |] eqn:Herase; [| discriminate].
  apply erase_last_Some in Herase as (l1 & q & l2 & Hpts & -> & _ & _).
  rewrite Hpts, length_app. simpl.
  destruct (l1 ++ l2) as [| x rest] eqn:Hrest; intros [= <- <-]; simpl.
  - apply (f_equal (@length _)) in Hrest. rewrite length_app in Hrest. simpl in Hrest.
    split; [lia |]. split; [tauto |]. split; [| discriminate].
    intros _. rewrite <- app_assoc. auto.
  - apply (f_equal (@length _)) in Hrest. rewrite length_app in Hrest. simpl in Hrest.
    split; [lia |]. split; [split; discriminate |]. split; [discriminate | auto].
Qed.

Lemma remove_subscription_finishes_on_the_last_point_witness :
  length (points worker_lifetime)
  = S (length (points (set_points [local_point] worker_lifetime)))
  /\ (CONSUMED = FINISHED <-> points (set_points [local_point] worker_lifetime) = [])
  /\ (CONSUMED = FINISHED ->
        calls (actor (set_points [local_point] worker_lifetime))
        = calls (actor worker_lifetime) ++ [call_shutdown_continue; call_plugin_deactivate]
        /\ lifetime (actor (set_points [local_point] worker_lifetime)) = false
        /\ state (actor (set_points [local_point] worker_lifetime))
           = state (actor worker_lifetime))
  /\ (CONSUMED = CONSUMED ->
        actor (set_points [local_point] worker_lifetime) = actor worker_lifetime).
Proof.
  apply (remove_subscription_finishes_on_the_last_point foreign_point worker_lifetime
           (set_points [local_point] worker_lifetime) CONSUMED).
  reflexivity.
Defined.

(** Recording a subscription and then removing the same point gives back
    the records as they were, also when an equal point was recorded
    before: the removal takes the point just recorded. *)
Theorem subscription_then_removal_restores_the_points
  (pt : subscription_point_t) (p : lifetime_plugin_t) :
  exists r p',
    remove_subscription pt (snd (handle_subscription pt p)) = Some (r, p')
    /\ points p' = points p
    /\ sup p' = sup p
    /\ (r = FINISHED <-> points p = []).
Proof.
  unfold handle_subscription. simpl.
  assert (Herase : erase_last pt (points p ++ [pt]) = Some (points p)).
  { apply erase_last_Some. exists (points p), pt, [].
    rewrite app_nil_r. repeat split; [apply point_eqb_refl | constructor]. }
  destruct (remove_subscription_sup pt (set_points (points p ++ [pt]) p) (points p) Herase)
    as (r & p' & Hrm & Hpts & Hsup & Hr).
  exists r, p'. auto.
Qed.

Lemma remove_all_newest_first (pts : list subscription_point_t) :
  forall p, points p = pts -> pts <> [] ->
  exists p',
    remove_all (rev pts) p
    = Some (repeat CONSUMED (length pts - 1) ++ [FINISHED], p')
    /\ points p' = []
    /\ sup p' = sup p
    /\ actor p'
       = record_call call_plugin_deactivate
           (set_lifetime false (record_call call_shutdown_continue (actor p))).
Proof.
  induction pts as [| x l IH] using rev_ind; intros p Hpts Hne; [congruence |].
  rewrite rev_app_distr. simpl.
  assert (Herase : erase_last x (points p) = Some l).
  { rewrite Hpts. apply erase_last_Some. exists l, x, [].
    rewrite app_nil_r. repeat split; [apply point_eqb_refl | constructor]. }
  unfold remove_subscription. rewrite Herase.
  destruct l as [| y l'].
  - simpl. eexists. split; [reflexivity |]. simpl. auto.
  - destruct (IH (set_points (y :: l') p) eq_refl ltac:(discriminate))
      as (p' & Hall & Hp' & Hsup & Hactor).
    rewrite Hall. exists p'. split; [| auto].
    rewrite length_app. simpl.
    replace (length l' + 1 - 0)%nat with (S (length l')) by lia.
    replace (length l' - 0)%nat with (length l') by lia.
    reflexivity.
Qed.

(** Teardown completes: when the removals of all recorded points are
    handled newest first, the order in which [handle_shutdown] asked for
    them, no assertion fails, every removal but the last reports
    [CONSUMED], the last reports [FINISHED] after the single call of
    [shutdown_continue], and [handle_shutdown] then reports completion. *)
Theorem teardown_newest_first_completes (p : lifetime_plugin_t) :
  points p <> [] ->
  exists p',
    remove_all (rev (points p)) p
    = Some (repeat CONSUMED (length (points p) - 1) ++ [FINISHED], p')
    /\ points p' = []
    /\ sup p' = sup p
    /\ calls (actor p')
       = calls (actor p) ++ [call_shutdown_continue; call_plugin_deactivate]
    /\ lifetime (actor p') = false
    /\ handle_shutdown p' = (true, p').
Proof.
  intros Hne.
  destruct (remove_all_newest_first (points p) p eq_refl Hne)
    as (p' & Hall & Hpts & Hsup & Hactor).
  exists p'. rewrite Hall, Hactor. simpl. rewrite <- app_assoc. simpl.
  repeat split; try assumption.
  unfold handle_shutdown. rewrite Hpts. reflexivity.
Qed.

Lemma teardown_newest_first_completes_witness :
  exists p',
    remove_all (rev (points worker_lifetime)) worker_lifetime
    = Some (repeat CONSUMED (length (points worker_lifetime) - 1) ++ [FINISHED], p')
    /\ points p' = []
    /\ sup p' = sup worker_lifetime
    /\ calls (actor p')
       = calls (actor worker_lifetime) ++ [call_shutdown_continue; call_plugin_deactivate]
    /\ lifetime (actor p') = false
    /\ handle_shutdown p' = (true, p').
Proof.
  apply (teardown_newest_first_completes worker_lifetime).
  discriminate.
Defined.

(** ** Finding a recorded point *)

Lemma find_subscription_loop_hit (addr : address_t) (h : handler_t)
  (passed : list subscription_point_t) (q : subscription_point_t)
  (rest : list subscription_point_t) (k : nat) :
  unrecorded {| point_address := addr; point_handler := h |} passed ->
  point_eqb q {| point_address := addr; point_handler := h |} = true ->
  find_subscription_loop addr h (passed ++ q :: rest) k = Some (k + length passed)%nat.
Proof.
  unfold unrecorded. revert k. induction passed as [| x l IH]; intros k Hl Hq; simpl.
  - unfold point_eqb in Hq. simpl in Hq. rewrite Hq. f_equal. lia.
  - inversion Hl as [| ? ? Hx Hl']; subst.
    unfold point_eqb in Hx. simpl in Hx. rewrite Hx.
    rewrite IH by assumption. f_equal. lia.
Qed.

Lemma find_subscription_loop_miss (addr : address_t) (h : handler_t)
  (l : list subscription_point_t) (k : nat) :
  find_subscription_loop addr h l k = None
  <-> unrecorded {| point_address := addr; point_handler := h |} l.
Proof.
  unfold unrecorded. revert k. induction l as [| x l IH]; intros k; simpl.
  - split; [constructor | reflexivity].
  - change (Nat.eqb (addr_ident (point_address x)) (addr_ident addr)
            && handler_eqb (point_handler x) h)
      with (point_eqb x {| point_address := addr; point_handler := h |}).
    destruct (point_eqb x _) eqn:Hx.
    + split; [discriminate |]. intros Hall. inversion Hall; subst. congruence.
    + rewrite IH. split.
      * intros Hl. constructor; assumption.
      * intros Hall. inversion Hall; subst. assumption.
Qed.

Lemma unrecorded_rev (pt : subscription_point_t) (l : list subscription_point_t) :
  unrecorded pt (rev l) <-> unrecorded pt l.
Proof.
  unfold unrecorded. split; intros Hl.
  - rewrite <- (rev_involutive l). by apply Forall_rev.
  - by apply Forall_rev.
Qed.

Lemma find_subscription_at (addr : address_t) (h : handler_t) (p : lifetime_plugin_t)
  (older : list subscription_point_t) (q : subscription_point_t)
  (newer : list subscription_point_t) :
  points p = older ++ q :: newer ->
  point_eqb q {| point_address := addr; point_handler := h |} = true ->
  unrecorded {| point_address := addr; point_handler := h |} newer ->
  find_subscription addr h p = Some (length older).
Proof.
  intros Hpts Hq Hnewer. unfold find_subscription. rewrite Hpts.
  rewrite rev_app_distr. simpl. rewrite <- app_assoc. simpl.
  rewrite find_subscription_loop_hit; [| by apply unrecorded_rev | exact Hq].
  rewrite length_app, length_rev. simpl. f_equal. lia.
Qed.

(** [find_subscription] fails its assertion exactly when no recorded point
    has the given address and an equal handler; otherwise the position it
    returns holds such a point, and no newer recorded point is one. *)
Theorem find_subscription_returns_the_newest_match
  (addr : address_t) (h : handler_t) (p : lifetime_plugin_t) :
  let pt := {| point_address := addr; point_handler := h |} in
  (find_subscription addr h p = None <-> unrecorded pt (points p))
  /\ (forall i, find_subscription addr h p = Some i ->
        exists older q newer,
          points p = older ++ q :: newer
          /\ length older = i
          /\ point_eqb q pt = true
          /\ unrecorded pt newer).
Proof.
  intros pt. split.
  - unfold find_subscription.
    destruct (find_subscription_loop addr h (rev (points p)) 0) as [k |] eqn:Hloop.
    + split; [discriminate |]. intros Hun.
      apply unrecorded_rev, (find_subscription_loop_miss addr h _ 0%nat) in Hun.
      congruence.
    + split; [| reflexivity]. intros _.
      apply unrecorded_rev, (find_subscription_loop_miss addr h _ 0%nat). exact Hloop.
  - intros i Hfind.
    destruct (erase_last pt (points p)) as [pts' |] eqn:Herase.
    + apply erase_last_Some in Herase as (l1 & q & l2 & Hpts & _ & Hq & Hl2).
      exists l1, q, l2. repeat split; try assumption.
      rewrite (find_subscription_at addr h p l1 q l2 Hpts Hq Hl2) in Hfind.
      congruence.
    + apply erase_last_None in Herase.
      apply unrecorded_rev, (find_subscription_loop_miss addr h _ 0%nat) in Herase.
      unfold find_subscription in Hfind. rewrite Herase in Hfind. discriminate.
Qed.

(** [remove_subscription] erases the point that [find_subscription]
    locates for the same address and handler: both scan the records from
    the newest point. *)
Theorem remove_subscription_erases_what_find_locates
  (pt : subscription_point_t) (p p' : lifetime_plugin_t) (r : processing_result_t) :
  remove_subscription pt p = Some (r, p') ->
  exists i,
    find_subscription (point_address pt) (point_handler pt) p = Some i
    /\ points p' = delete i (points p).
Proof.
  intros Hrm.
  destruct (remove_subscription_takes_the_newest_match pt p p' r Hrm)
    as (l1 & q & l2 & Hpts & Hpts' & Hq & Hl2 & _).
  exists (length l1). destruct pt as [addr h]. simpl. split.
  - by apply (find_subscription_at addr h p l1 q l2).
  - rewrite Hpts, Hpts'. clear. induction l1 as [| x l1 IH]; simpl; [reflexivity |].
    by rewrite IH.
Qed.

Lemma remove_subscription_erases_what_find_locates_witness :
  exists i,
    find_subscription (point_address foreign_point) (point_handler foreign_point)
      worker_lifetime = Some i
    /\ points (set_points [local_point] worker_lifetime)
       = delete i (points worker_lifetime).
Proof.
  apply (remove_subscription_erases_what_find_locates foreign_point worker_lifetime
           (set_points [local_point] worker_lifetime) CONSUMED).
  reflexivity.
Defined.

(** ** Answering the init request, and shutting down twice *)

(** A pending init request is answered exactly once: [handle_init] sends
    one response, to the request's [reply_to] address and carrying the
    request, empties the slot and returns [true]; called again it returns
    [false] and sends nothing. *)
Theorem init_request_is_answered_once
  (a : actor_base_t) (s : supervisor_t) (msg : message_t) (rq : wrapped_request_t) :
  init_request a = Some msg ->
  payload msg = request rq ->
  exists a' s',
    handle_init a s = (true, a', s')
    /\ init_request a' = None
    /\ state a' = state a
    /\ s' = set_queue (queue s ++ [{| address := reply_to rq;
                                      payload := responce success rq (Some 0%N) |}]) s
    /\ handle_init a' s' = (false, a', s').
Proof.
  intros Hreq Hrq. unfold handle_init. rewrite Hreq.
  eexists _, _. split; [reflexivity |]. simpl.
  unfold actor_reply_to. rewrite Hrq. auto.
Qed.

Lemma init_request_is_answered_once_witness :
  exists a' s',
    handle_init (set_init_request (Some lifecycle_request) (actor_in INITIALIZING))
      idle_supervisor = (true, a', s')
    /\ init_request a' = None
    /\ state a' = state (set_init_request (Some lifecycle_request) (actor_in INITIALIZING))
    /\ s' = set_queue (queue idle_supervisor
                       ++ [{| address := reply_to sample_request;
                              payload := responce success sample_request (Some 0%N) |}])
                      idle_supervisor
    /\ handle_init a' s' = (false, a', s').
Proof.
  apply (init_request_is_answered_once
           (set_init_request (Some lifecycle_request) (actor_in INITIALIZING))
           idle_supervisor lifecycle_request sample_request); reflexivity.
Defined.

(** [on_init] overwrites the slot: of two init requests received before
    [handle_init] runs, only the second is answered, and the slot is then
    empty, so the first is never answered from it. *)
Theorem second_init_request_replaces_the_first
  (a : actor_base_t) (s : supervisor_t) (m1 m2 : message_t) (rq2 : wrapped_request_t) :
  payload m2 = request rq2 ->
  exists a1 a2 a3,
    on_init m1 a = Some a1
    /\ on_init m2 a1 = Some a2
    /\ handle_init a2 s
       = (true, a3,
          set_queue (queue s ++ [{| address := reply_to rq2;
                                    payload := responce success rq2 (Some 0%N) |}]) s)
    /\ init_request a3 = None.
Proof.
  intros Hrq. unfold on_init. eexists _, _, _.
  split; [reflexivity |]. split; [reflexivity |].
  unfold handle_init. simpl. unfold actor_reply_to. rewrite Hrq.
  split; reflexivity.
Qed.

Lemma second_init_request_replaces_the_first_witness :
  exists a1 a2 a3,
    on_init {| address := 3%nat; payload := request req1 |} (actor_in NEW) = Some a1
    /\ on_init lifecycle_request a1 = Some a2
    /\ handle_init a2 idle_supervisor
       = (true, a3,
          set_queue (queue idle_supervisor
                     ++ [{| address := reply_to sample_request;
                            payload := responce success sample_request (Some 0%N) |}])
                    idle_supervisor)
    /\ init_request a3 = None.
Proof.
  apply (second_init_request_replaces_the_first (actor_in NEW) idle_supervisor
           {| address := 3%nat; payload := request req1 |} lifecycle_request sample_request).
  reflexivity.
Defined.

(** A second shutdown request fails the assertion: once [on_shutdown] has
    accepted a request the actor is in [SHUTTING_DOWN], where [on_shutdown]
    accepts none. *)
Theorem second_shutdown_request_is_rejected
  (a a' : actor_base_t) (msg msg' : message_t) :
  on_shutdown msg a = Some a' -> on_shutdown msg' a' = None.
Proof.
  unfold on_shutdown. destruct (state_eqb (state a) OPERATIONAL); [| discriminate].
  intros [= <-]. reflexivity.
Qed.

Lemma second_shutdown_request_is_rejected_witness :
  on_shutdown lifecycle_request
    (record_call call_shutdown_continue
       (set_shutdown_request (Some lifecycle_request)
          (set_state SHUTTING_DOWN (actor_in OPERATIONAL)))) = None.
Proof.
  apply (second_shutdown_request_is_rejected (actor_in OPERATIONAL) _
           lifecycle_request lifecycle_request).
  reflexivity.
Defined.

(** ** Request ids *)

Lemma to_timer_id_range (x : Z) : 0 <= to_timer_id x < 2 ^ timer_id_bits.
Proof. unfold to_timer_id. apply Z.mod_pos_bound. unfold timer_id_bits. lia. Qed.

Lemma last_req_id_body (k : Z) (msg : message_t) (s : supervisor_t) :
  last_req_id (responce_lambda_body k msg s) = last_req_id s.
Proof. unfold responce_lambda_body. destruct (request_map s !! k); reflexivity. Qed.

Lemma last_req_id_step (hash_code : positive -> Z) (lambda_type : type_tag -> positive)
  (e : event) (s : supervisor_t) :
  last_req_id (step hash_code lambda_type e s)
  = match e with
    | ev_request _ _ _ _ _ => to_timer_id (last_req_id s + 1)
    | _ => last_req_id s
    end.
Proof.
  destruct e as [T dst rt args d | msg | id0 | d]; simpl.
  - unfold request_with_timeout, do_request. simpl.
    destruct (request_subscriptions s !! T); simpl; [reflexivity |].
    unfold timeout, install_handler, subscribe_actor. simpl.
    destruct (is_local _ _); reflexivity.
  - apply (deliver_local_ind (fun s' => last_req_id s' = last_req_id s)); [| reflexivity].
    intros k s' Hs'. by rewrite last_req_id_body.
  - unfold on_timer_trigger. destruct (Z.eqb id0 shutdown_timer_id); simpl; [reflexivity |].
    destruct (request_map s !! id0); reflexivity.
  - reflexivity.
Qed.

(** Request ids are handed out in sequence: whatever else happens in
    between, after a run with [n] requests the counter stands [n] steps
    further, modulo [2^32]. *)
Theorem request_ids_are_sequential
  (hash_code : positive -> Z) (lambda_type : type_tag -> positive)
  (evs : list event) (s : supervisor_t) :
  0 <= last_req_id s < 2 ^ timer_id_bits ->
  last_req_id (run hash_code lambda_type evs s)
  = to_timer_id (last_req_id s + Z.of_nat (length (requested_types evs))).
Proof.
  revert s. induction evs as [| e evs IH]; intros s Hs.
  - simpl. rewrite Z.add_0_r. unfold to_timer_id. symmetry. by apply Z.mod_small.
  - change (run hash_code lambda_type (e :: evs) s)
      with (run hash_code lambda_type evs (step hash_code lambda_type e s)).
    rewrite requested_types_cons, length_app.
    pose proof (last_req_id_step hash_code lambda_type e s) as Hstep.
    destruct e as [T dst rt args d | msg | id0 | d].
    + rewrite IH by (rewrite Hstep; apply to_timer_id_range).
      rewrite Hstep. unfold to_timer_id. simpl length.
      rewrite Zplus_mod_idemp_l. f_equal. lia.
    + rewrite IH by (rewrite Hstep; exact Hs). rewrite Hstep. reflexivity.
    + rewrite IH by (rewrite Hstep; exact Hs). rewrite Hstep. reflexivity.
    + rewrite IH by (rewrite Hstep; exact Hs). rewrite Hstep. reflexivity.
Qed.

Lemma request_ids_are_sequential_witness :
  last_req_id (go [first_request; ev_timer 1; second_request] idle_supervisor)
  = to_timer_id (last_req_id idle_supervisor
                 + Z.of_nat (length (requested_types
                                       [first_request; ev_timer 1; second_request]))).
Proof.
  apply (request_ids_are_sequential sample_hash_code sample_lambda_type
           [first_request; ev_timer 1; second_request] idle_supervisor).
  unfold timer_id_bits. simpl. lia.
Defined.

(** The counter wraps: a request gets the id after the last one, except
    that after [2^32 - 1] it gets [0], the id reserved for the shutdown
    timer, and in either case arms the timer of its id.  At the wrap the
    request therefore arms the timer that stands for the shutdown timer. *)
Theorem request_id_wraps_to_the_shutdown_timer_id
  (hash_code : positive -> Z) (lambda_type : type_tag -> positive)
  (T : type_tag) (dst rt : address_ptr_t) (args : N) (d : Z) (s : supervisor_t) :
  0 <= last_req_id s < 2 ^ timer_id_bits ->
  let s' := request_with_timeout hash_code lambda_type T dst rt args d s in
  (last_req_id s < 2 ^ timer_id_bits - 1 -> last_req_id s' = last_req_id s + 1)
  /\ (last_req_id s' = shutdown_timer_id <-> last_req_id s = 2 ^ timer_id_bits - 1)
  /\ timers s' !! last_req_id s' = Some d.
Proof.
  intros Hs s'.
  pose proof (last_req_id_step hash_code lambda_type (ev_request T dst rt args d) s) as Hid.
  simpl in Hid. fold s' in Hid.
  destruct (issue_maps hash_code lambda_type T dst rt args d s) as (Htim & _).
  fold s' in Htim. rewrite Hid, Htim, lookup_insert_eq.
  unfold to_timer_id, shutdown_timer_id, timer_id_bits in *.
  change (2 ^ 32) with 4294967296 in *.
  split; [| split; [| reflexivity]].
  - intros Hlt. apply Z.mod_small. lia.
  - destruct (Z.eq_dec (last_req_id s) 4294967295) as [-> | Hne].
    + split; reflexivity.
    + rewrite Z.mod_small by lia. lia.
Qed.

Lemma request_id_wraps_to_the_shutdown_timer_id_witness :
  let s := set_last_req_id (2 ^ timer_id_bits - 1) idle_supervisor in
  let s' := request_with_timeout sample_hash_code sample_lambda_type
              1%positive responder caller1 5%N 500 s in
  (last_req_id s < 2 ^ timer_id_bits - 1 -> last_req_id s' = last_req_id s + 1)
  /\ (last_req_id s' = shutdown_timer_id <-> last_req_id s = 2 ^ timer_id_bits - 1)
  /\ timers s' !! last_req_id s' = Some 500.
Proof.
  apply (request_id_wraps_to_the_shutdown_timer_id sample_hash_code sample_lambda_type
           1%positive responder caller1 5%N 500
           (set_last_req_id (2 ^ timer_id_bits - 1) idle_supervisor)).
  unfold timer_id_bits. simpl. lia.
Defined.

(** ** The timeout message and the response handler *)

(** A request whose id is still in [request_map] (the counter has wrapped
    onto a pending request) keeps the pending request's timeout message:
    its own timeout message is discarded, yet its request is enqueued and
    the timer of the id is armed anew with its duration. *)
Theorem request_on_a_pending_id_keeps_the_old_timeout_message
  (hash_code : positive -> Z) (lambda_type : type_tag -> positive)
  (T : type_tag) (dst rt : address_ptr_t) (args : N) (d : Z) (s : supervisor_t)
  (old : message_t) :
  request_map s !! to_timer_id (last_req_id s + 1) = Some old ->
  let s' := request_with_timeout hash_code lambda_type T dst rt args d s in
  request_map s' = request_map s
  /\ timers s' = <[to_timer_id (last_req_id s + 1) := d]> (timers s)
  /\ exists before imaginary,
       queue s' = queue s ++ before
                  ++ [{| address := dst;
                         payload := request {| request_id := to_timer_id (last_req_id s + 1);
                                               reply_to := imaginary;
                                               request_args := args;
                                               responce_type := T |} |}].
Proof.
  intros Hold s'.
  destruct (issue_maps hash_code lambda_type T dst rt args d s) as (Htim & m & Hmap).
  fold s' in Htim, Hmap.
  split; [| split; [exact Htim |]].
  - rewrite Hmap. unfold emplace. by rewrite Hold.
  - subst s'. destruct (request_subscriptions s !! T) as [a |] eqn:HT.
    + destruct (issue_cached hash_code lambda_type T dst rt args d s a HT)
        as (_ & _ & _ & _ & Hq).
      exists [], (addr_ident a). exact Hq.
    + unfold request_with_timeout, do_request. simpl. rewrite HT. simpl.
      unfold timeout, install_handler, subscribe_actor. simpl.
      rewrite is_local_own_address by reflexivity. simpl.
      eexists [_], _. rewrite <- app_assoc. reflexivity.
Qed.

Lemma request_on_a_pending_id_keeps_the_old_timeout_message_witness :
  let s := set_last_req_id 0 (go [first_request] idle_supervisor) in
  let s' := request_with_timeout sample_hash_code sample_lambda_type
              1%positive responder caller2 6%N 700 s in
  request_map s' = request_map s
  /\ timers s' = <[to_timer_id (last_req_id s + 1) := 700]> (timers s)
  /\ exists before imaginary,
       queue s' = queue s ++ before
                  ++ [{| address := responder;
                         payload := request {| request_id := to_timer_id (last_req_id s + 1);
                                               reply_to := imaginary;
                                               request_args := 6%N;
                                               responce_type := 1%positive |} |}].
Proof.
  apply (request_on_a_pending_id_keeps_the_old_timeout_message
           sample_hash_code sample_lambda_type 1%positive responder caller2 6%N 700
           (set_last_req_id 0 (go [first_request] idle_supervisor))
           (timeout_message caller1 req1)).
  vm_compute. reflexivity.
Defined.

(** The response lambda forwards at most once.  When the id it captured
    has an entry, it sends the payload of the arriving message to the
    address of the stored timeout message, erases the entry and cancels
    the timer of that id; run again, on any message, it changes nothing. *)
Theorem response_lambda_forwards_at_most_once
  (k : Z) (m1 m2 : message_t) (s : supervisor_t) :
  (forall it, request_map s !! k = Some it ->
     queue (responce_lambda_body k m1 s)
     = queue s ++ [{| address := address it; payload := payload m1 |}]
     /\ request_map (responce_lambda_body k m1 s) = delete k (request_map s)
     /\ timers (responce_lambda_body k m1 s) = delete k (timers s))
  /\ (request_map s !! k = None -> responce_lambda_body k m1 s = s)
  /\ responce_lambda_body k m2 (responce_lambda_body k m1 s)
     = responce_lambda_body k m1 s.
Proof.
  split; [| split].
  - intros it Hit. unfold responce_lambda_body. rewrite Hit. simpl. auto.
  - apply responce_lambda_body_maps.
  - destruct (responce_lambda_body_maps k m1 s) as (Hmap & _ & _).
    apply responce_lambda_body_maps. rewrite Hmap. apply lookup_delete_eq.
Qed.

(** Round trip of the first request of a response type: when its id has no
    entry and no timer yet, the request followed by the delivery of its
    response to the handler it installed sends the response on to the
    caller and leaves [request_map] and the timers as they were before the
    request. *)
Theorem first_request_and_its_response_round_trip
  (hash_code : positive -> Z) (lambda_type : type_tag -> positive)
  (T : type_tag) (dst caller : address_ptr_t) (args res : N) (d : Z)
  (s : supervisor_t) :
  let rid := to_timer_id (last_req_id s + 1) in
  let a := {| addr_ident := next_address s; addr_supervisor := self s |} in
  let h := make_handler hash_code (self_actor s) (lambda_type T) (responce_lambda T rid) in
  let rq := {| request_id := rid; reply_to := next_address s;
               request_args := args; responce_type := T |} in
  request_subscriptions s !! T = None ->
  request_map s !! rid = None ->
  timers s !! rid = None ->
  let s1 := request_with_timeout hash_code lambda_type T dst caller args d s in
  let s2 := call h (reply_to_request rq res) s1 in
  request_map s1 !! rid = Some {| address := caller;
                                  payload := responce request_timeout rq None |}
  /\ timers s1 !! rid = Some d
  /\ request_map s2 = request_map s
  /\ timers s2 = timers s
  /\ queue s2
     = queue s ++ [ {| address := sup_address (self s);
                       payload := subscription_confirmation a h |};
                    {| address := dst; payload := request rq |};
                    {| address := caller; payload := responce success rq (Some res) |} ].
Proof.
  intros rid a h rq HT Hmap Htim s1 s2. subst s1 s2.
  unfold request_with_timeout, do_request. simpl. rewrite HT. simpl.
  unfold timeout. simpl. unfold install_handler, subscribe_actor. simpl.
  rewrite is_local_own_address by reflexivity. simpl.
  rewrite (emplace_fresh (to_timer_id (last_req_id s + 1))) by exact Hmap.
  unfold call, reply_to_request. simpl. rewrite Pos.eqb_refl.
  unfold responce_lambda_body. simpl. rewrite !lookup_insert_eq. simpl.
  rewrite !delete_insert_id by assumption.
  repeat split. rewrite <- !app_assoc. reflexivity.
Qed.

Lemma first_request_and_its_response_round_trip_witness :
  let s1 := go [first_request] idle_supervisor in
  let s2 := call installed_handler (reply_to_request req1 76) s1 in
  request_map s1 !! 1 = Some (timeout_message caller1 req1)
  /\ timers s1 !! 1 = Some 500
  /\ request_map s2 = request_map idle_supervisor
  /\ timers s2 = timers idle_supervisor
  /\ queue s2
     = queue idle_supervisor
       ++ [ {| address := 1%nat;
               payload := subscription_confirmation
                            {| addr_ident := 50%nat; addr_supervisor := sup_a |}
                            installed_handler |};
            {| address := responder; payload := request req1 |};
            {| address := caller1; payload := responce success req1 (Some 76%N) |} ].
Proof.
  apply (first_request_and_its_response_round_trip sample_hash_code sample_lambda_type
           1%positive responder caller1 5%N 76%N 500 idle_supervisor); reflexivity.
Defined.

(** ** What [request_map] holds *)

Lemma issue_request_map (hash_code : positive -> Z) (lambda_type : type_tag -> positive)
  (T : type_tag) (dst rt : address_ptr_t) (args : N) (d : Z) (s : supervisor_t) :
  let rid := to_timer_id (last_req_id s + 1) in
  exists imaginary,
    request_map (request_with_timeout hash_code lambda_type T dst rt args d s)
    = emplace rid
        {| address := rt;
           payload := responce request_timeout
                        {| request_id := rid; reply_to := imaginary;
                           request_args := args; responce_type := T |} None |}
        (request_map s).
Proof.
  unfold request_with_timeout, do_request. simpl.
  destruct (request_subscriptions s !! T) as [a |]; simpl.
  - eexists. reflexivity.
  - unfold timeout, install_handler, subscribe_actor. simpl.
    rewrite is_local_own_address by reflexivity. simpl.
    eexists. reflexivity.
Qed.

Lemma entries_are_timeouts_step (hash_code : positive -> Z)
  (lambda_type : type_tag -> positive) (e : event) (s : supervisor_t) :
  entries_are_timeouts s -> entries_are_timeouts (step hash_code lambda_type e s).
Proof.
  intros Hs. destruct e as [T dst rt args d | msg | id0 | d]; simpl.
  - destruct (issue_request_map hash_code lambda_type T dst rt args d s) as (imag & Hmap).
    intros id m. rewrite Hmap, emplace_lookup. case_decide as Hid; [| apply Hs].
    subst id. destruct (request_map s !! to_timer_id (last_req_id s + 1)) as [old |] eqn:Hold;
      simpl; intros [= <-].
    + by apply Hs.
    + split; [apply to_timer_id_range |]. simpl. eauto.
  - apply deliver_local_ind; [| exact Hs].
    intros k s' Hs' id m. destruct (responce_lambda_body_maps k msg s') as (-> & _ & _).
    intros Hm. apply lookup_delete_Some in Hm as [_ Hm]. by apply Hs'.
  - intros id m. destruct (on_timer_trigger_maps id0 s) as [_ ->].
    destruct (Z.eqb id0 shutdown_timer_id); [apply Hs |].
    intros Hm. apply lookup_delete_Some in Hm as [_ Hm]. by apply Hs.
  - exact Hs.
Qed.

(** In every state reached from a new supervisor, each entry of
    [request_map] is a timeout response (error [request_timeout], no
    result) that carries the request whose id is the entry's key, and the
    key lies in the range of [timer_id_t]. *)
Theorem request_map_holds_the_timeouts_of_its_keys
  (hash_code : positive -> Z) (lambda_type : type_tag -> positive)
  (me : supervisor_ref) (n0 : address_ptr_t) (r0 : Z) (evs : list event)
  (id : Z) (m : message_t) :
  request_map (run hash_code lambda_type evs (fresh_supervisor me n0 r0)) !! id = Some m ->
  0 <= id < 2 ^ timer_id_bits
  /\ exists rq, payload m = responce request_timeout rq None /\ request_id rq = id.
Proof.
  assert (Hrun : forall s, entries_are_timeouts s ->
                           entries_are_timeouts (run hash_code lambda_type evs s)).
  { induction evs as [| e evs IH]; intros s Hs; simpl; [exact Hs |].
    apply IH. by apply entries_are_timeouts_step. }
  apply Hrun. intros j x. simpl. rewrite lookup_empty. discriminate.
Qed.

Lemma request_map_holds_the_timeouts_of_its_keys_witness :
  0 <= 2 < 2 ^ timer_id_bits
  /\ exists rq, payload (timeout_message caller2 req2) = responce request_timeout rq None
                /\ request_id rq = 2.
Proof.
  apply (request_map_holds_the_timeouts_of_its_keys sample_hash_code sample_lambda_type
           sup_a 50%nat 0 [first_request; second_request] 2 (timeout_message caller2 req2)).
  vm_compute. reflexivity.
Defined.
